(** * TeethInputManager: the gesture recogniser of the ESP32 teeth controller

    A shallow embedding of
    [VRSocial/ESP32_TeethController/TeethInputManager.{h,cpp}]:
    the per-button debounce ([updateButtonStates]), the session
    accumulator, the quiescence test and the classifier
    ([analyzeGesture], [getGestureType], [resetGesture]), and [init].

    Machine types follow the ESP32 (ILP32) target: [int] is a signed
    32-bit integer, [unsigned long] (the type of [millis()]) an unsigned
    32-bit integer, [float] is IEEE binary32 and [double] binary64.  All
    of them are carried by [Z] (resp. [spec_float]) with the wrap-around
    and the rounding written out.  The board is an input of each tick
    (the values of [millis()] and [digitalRead]); of the serial output
    only the press and release lines of the sampler are kept, and
    [pinMode] is not modelled. *)

From Stdlib Require Import ZArith List Bool Lia Ascii String Sorted Permutation.
From Stdlib Require Import Floats.SpecFloat QArith Qabs Qpower Lqa.
Import ListNotations.
Local Open Scope Z_scope.

(** ** Machine integers *)

Module MachineInt.

Definition ULONG_MOD : Z := 4294967296.        (* 2^32 *)
Definition INT_MAX : Z := 2147483647.          (* 2^31 - 1 *)
Definition INT_MIN : Z := -2147483648.         (* - 2^31 *)

(** Reduction of a mathematical integer to [unsigned long]. *)
Definition wrap_ulong (z : Z) : Z := z mod ULONG_MOD.

(** Reduction of a mathematical integer to two's complement [int]. *)
Definition wrap_int (z : Z) : Z := (z - INT_MIN) mod ULONG_MOD + INT_MIN.

Definition in_int (z : Z) : Prop := INT_MIN <= z <= INT_MAX.
Definition in_ulong (z : Z) : Prop := 0 <= z < ULONG_MOD.

(** [a - b] and [a * b] on [unsigned long]. *)
Definition ulong_sub (a b : Z) : Z := wrap_ulong (a - b).
Definition ulong_mul (a b : Z) : Z := wrap_ulong (a * b).

(** [a - b] and [abs(a)] on [int]. *)
Definition int_sub (a b : Z) : Z := wrap_int (a - b).
Definition int_abs (a : Z) : Z := wrap_int (Z.abs a).

(** The conversions the source performs implicitly:
    [size_t -> int] in [int n = v.size()] and [int -> unsigned long]
    in [SLIDE_MAX_INTERVAL * uniqueCount]. *)
Definition int_of_size (n : nat) : Z := wrap_int (Z.of_nat n).
Definition ulong_of_int (i : Z) : Z := wrap_ulong i.

End MachineInt.
Import MachineInt.

(** ** Floating point: [totalDuration / 1000.0] stored in a [float] *)

Module Float32.

Definition double_prec : Z := 53.
Definition double_emax : Z := 1024.
Definition float_prec : Z := 24.
Definition float_emax : Z := 128.

(** [unsigned long -> double]; exact, 32 bits fit in the mantissa. *)
Definition double_of_ulong (n : Z) : spec_float :=
  binary_normalize double_prec double_emax n 0 false.

(** The literal [1000.0]. *)
Definition double_1000 : spec_float :=
  binary_normalize double_prec double_emax 1000 0 false.

Definition double_div (x y : spec_float) : spec_float :=
  SFdiv double_prec double_emax x y.

(** [double -> float], round to nearest even. *)
Definition float_of_double (d : spec_float) : spec_float :=
  match d with
  | S754_finite s m e =>
      binary_normalize float_prec float_emax
        (if s then Z.neg m else Z.pos m) e s
  | _ => d
  end.

(** [totalDuration / 1000.0] assigned to a [float]: the operand is
    converted to [double], divided by the [double] literal, and the
    quotient is rounded to [float]. *)
Definition seconds_of_millis (ms : Z) : spec_float :=
  float_of_double (double_div (double_of_ulong ms) double_1000).

(** The initial value [duration(0)] of the [TeethInput] constructor. *)
Definition float_zero : spec_float := S754_zero false.

(** The rational number a finite floating-point datum stands for:
    [(-1)^s * m * 2^e].  Infinities and NaN stand for none. *)
Definition float_value (f : spec_float) : option Q :=
  match f with
  | S754_zero _ => Some 0%Q
  | S754_finite s m e =>
      Some (inject_Z (if s then Zneg m else Zpos m) * Qpower 2 e)%Q
  | _ => None
  end.

(** The data a [float] variable can hold: IEEE binary32. *)
Definition is_binary32 (f : spec_float) : bool :=
  valid_binary float_prec float_emax f.

End Float32.
Import Float32.

(** ** Data model (TeethInputManager.h) *)

Record ButtonState := mkButtonState {
  pin : Z;
  currentState : bool;
  lastState : bool;
  pressStartTime : Z;
  lastChangeTime : Z;
  isPressed : bool
}.

Record TeethInput := mkTeethInput {
  isValid : bool;
  gesture : string;
  teeth : list Z;
  duration : spec_float
}.

(** [TeethInput() : isValid(false), duration(0) {}]; the [String] and the
    vector are default-constructed, hence empty. *)
Definition TeethInput_default : TeethInput :=
  {| isValid := false; gesture := EmptyString; teeth := [];
     duration := float_zero |}.

Record TeethInputManager := mkManager {
  buttons : list ButtonState;
  currentGesture : list Z;
  gestureStartTime : Z;
  lastButtonTime : Z;
  gestureActive : bool
}.

Definition DEBOUNCE_TIME : Z := 50.
Definition LONG_PRESS_TIME : Z := 800.
Definition SLIDE_MAX_INTERVAL : Z := 300.
Definition MULTI_PRESS_WINDOW : Z := 500.

(** ** [std::sort], [std::unique] on [std::vector<int>] *)

(** [std::sort] with the default [operator<]: the result is the ascending
    arrangement of the input, which for integers does not depend on the
    sorting algorithm; it is computed here by insertion. *)
Fixpoint sort_insert (x : Z) (l : list Z) : list Z :=
  match l with
  | [] => [x]
  | y :: l' => if x <=? y then x :: l else y :: sort_insert x l'
  end.

Fixpoint std_sort (l : list Z) : list Z :=
  match l with
  | [] => []
  | x :: l' => sort_insert x (std_sort l')
  end.

(** [std::unique]: keep the first element of every run of equal
    neighbours.  [unique_from prev l] is the scan with [prev] the last
    element kept. *)
Fixpoint unique_from (prev : Z) (l : list Z) : list Z :=
  match l with
  | [] => []
  | x :: l' =>
      if x =? prev then unique_from prev l' else x :: unique_from x l'
  end.

(** [v.erase(std::unique(v.begin(), v.end()), v.end())]. *)
Definition std_unique (l : list Z) : list Z :=
  match l with
  | [] => []
  | x :: l' => x :: unique_from x l'
  end.

(** The idiom of lines 101-104 and 125-128: copy, sort, drop duplicates. *)
Definition sorted_unique (v : list Z) : list Z := std_unique (std_sort v).

(** ** [getGestureType] *)

(** The loop of lines 145-150, started at [i = 1] with
    [prev = sequence[0]]: stop with [false] at the first neighbouring
    pair whose [abs] difference is not 1. *)
Fixpoint slide_loop (prev : Z) (rest : list Z) : bool :=
  match rest with
  | [] => true
  | x :: rest' =>
      if negb (int_abs (int_sub x prev) =? 1) then false
      else slide_loop x rest'
  end.

Definition getGestureType (sequence : list Z) (duration : Z) : string :=
  match sequence with
  | [] => "unknown"%string
  | first :: rest =>
      let uniqueButtons := sorted_unique sequence in
      let uniqueCount := int_of_size (List.length uniqueButtons) in
      let totalPresses := int_of_size (List.length sequence) in
      if uniqueCount =? 1 then
        if duration >? LONG_PRESS_TIME then "long_press"%string
        else if totalPresses >? 1 then "multi_press"%string
        else "single_click"%string
      else if uniqueCount >? 1 then
        let isSlide := slide_loop first rest in
        if isSlide &&
           (duration <? ulong_mul SLIDE_MAX_INTERVAL (ulong_of_int uniqueCount))
        then "slide"%string
        else "multi_press"%string
      else "unknown"%string
  end.

(** ** [resetGesture] and [init] *)

Definition resetGesture (m : TeethInputManager) : TeethInputManager :=
  {| buttons := buttons m;
     currentGesture := [];
     gestureStartTime := 0;
     lastButtonTime := 0;
     gestureActive := false |}.

(** The [ButtonState] pushed for one pin by the loop of [init]. *)
Definition init_button (p : Z) : ButtonState :=
  {| pin := p; currentState := false; lastState := false;
     pressStartTime := 0; lastChangeTime := 0; isPressed := false |}.

(** [init] is a [void] member function: it clears [buttons], pushes one
    state per pin and calls [resetGesture].  [m] is the object it is
    called on, whose fields may hold anything (the class has no
    constructor). *)
Definition init (m : TeethInputManager) (buttonPins : list Z)
  : TeethInputManager :=
  resetGesture
    {| buttons := map init_button buttonPins;
       currentGesture := currentGesture m;
       gestureStartTime := gestureStartTime m;
       lastButtonTime := lastButtonTime m;
       gestureActive := gestureActive m |}.

(** ** One polling tick: [updateButtonStates], [analyzeGesture], [checkInput] *)

(** What the firmware reads from the board during one call of
    [checkInput]: the two calls of [millis()] (one in
    [updateButtonStates], one in [analyzeGesture]) and the level returned
    by the k-th call of [digitalRead], made on the pin of the k-th
    button ([LOW] is 0). *)
Record Tick := mkTick {
  millis_update : Z;
  millis_analyze : Z;
  digitalRead : nat -> Z -> Z
}.

(** The two [Serial.printf] lines of [updateButtonStates], i.e. the
    press and release edges reported to the diagnostics console. *)
Inductive Edge :=
| EdgePressed (p : Z)
| EdgeReleased (p : Z) (held : Z).

(** [bool reading = !digitalRead(btn.pin);] *)
Definition reading_of (level : Z) : bool := level =? 0.

(** The press branch, lines 51-61. *)
Definition record_press (now : Z) (p : Z) (m : TeethInputManager)
  : TeethInputManager :=
  {| buttons := buttons m;
     currentGesture := currentGesture m ++ [p];
     gestureStartTime :=
       if negb (gestureActive m) then now else gestureStartTime m;
     lastButtonTime := now;
     gestureActive :=
       if negb (gestureActive m) then true else gestureActive m |}.

(** The body of the loop of [updateButtonStates] (lines 39-73) for one
    button: the new button state, the new session fields and the edges
    printed. *)
Definition update_button (now : Z) (reading : bool)
    (btn : ButtonState) (m : TeethInputManager)
  : ButtonState * TeethInputManager * list Edge :=
  let btn1 :=
    if negb (Bool.eqb reading (lastState btn))
    then {| pin := pin btn; currentState := currentState btn;
            lastState := lastState btn;
            pressStartTime := pressStartTime btn;
            lastChangeTime := now; isPressed := isPressed btn |}
    else btn in
  let '(btn2, m2, log) :=
    if ulong_sub now (lastChangeTime btn1) >? DEBOUNCE_TIME then
      if negb (Bool.eqb reading (currentState btn1)) then
        if reading then
          ({| pin := pin btn1; currentState := reading;
              lastState := lastState btn1;
              pressStartTime := now;
              lastChangeTime := lastChangeTime btn1;
              isPressed := true |},
           record_press now (pin btn1) m,
           [EdgePressed (pin btn1)])
        else
          ({| pin := pin btn1; currentState := reading;
              lastState := lastState btn1;
              pressStartTime := pressStartTime btn1;
              lastChangeTime := lastChangeTime btn1;
              isPressed := false |},
           m,
           [EdgeReleased (pin btn1) (ulong_sub now (pressStartTime btn1))])
      else (btn1, m, [])
    else (btn1, m, []) in
  ({| pin := pin btn2; currentState := currentState btn2;
      lastState := reading;
      pressStartTime := pressStartTime btn2;
      lastChangeTime := lastChangeTime btn2;
      isPressed := isPressed btn2 |},
   m2, log).

(** [for (auto& btn : buttons)], the k-th iteration first. *)
Fixpoint update_loop (now : Z) (rd : nat -> Z -> Z) (k : nat)
    (btns : list ButtonState) (m : TeethInputManager)
  : list ButtonState * TeethInputManager * list Edge :=
  match btns with
  | [] => ([], m, [])
  | btn :: rest =>
      let '(btn', m1, log1) :=
        update_button now (reading_of (rd k (pin btn))) btn m in
      let '(rest', m2, log2) := update_loop now rd (S k) rest m1 in
      (btn' :: rest', m2, log1 ++ log2)
  end.

Definition updateButtonStates (tk : Tick) (m : TeethInputManager)
  : TeethInputManager * list Edge :=
  let '(btns', m', log) :=
    update_loop (millis_update tk) (digitalRead tk) 0 (buttons m) m in
  ({| buttons := btns';
      currentGesture := currentGesture m';
      gestureStartTime := gestureStartTime m';
      lastButtonTime := lastButtonTime m';
      gestureActive := gestureActive m' |}, log).

(** The loop of lines 82-88. *)
Definition anyPressed (btns : list ButtonState) : bool :=
  existsb isPressed btns.

(** The guard of line 91-92. *)
Definition gesture_complete (now : Z) (m : TeethInputManager) : bool :=
  negb (anyPressed (buttons m)) && gestureActive m &&
  (ulong_sub now (lastButtonTime m) >? MULTI_PRESS_WINDOW).

(** The block of lines 95-105, which fills [result] from the press
    sequence and the session duration in milliseconds. *)
Definition fill_result (presses : list Z) (totalDuration : Z) : TeethInput :=
  {| isValid := true;
     gesture := getGestureType presses totalDuration;
     teeth := sorted_unique presses;
     duration := seconds_of_millis totalDuration |}.

(** [result] as lines 78 and 94-112 leave it when the guard holds:
    default-constructed, then filled unless the press sequence is
    empty. *)
Definition classify (presses : list Z) (totalDuration : Z) : TeethInput :=
  match presses with
  | [] => TeethInput_default
  | _ :: _ => fill_result presses totalDuration
  end.

Definition analyzeGesture (now : Z) (m : TeethInputManager)
  : TeethInput * TeethInputManager :=
  if gesture_complete now m then
    (classify (currentGesture m) (ulong_sub now (gestureStartTime m)),
     resetGesture m)
  else (TeethInput_default, m).

Definition checkInput (tk : Tick) (m : TeethInputManager)
  : TeethInput * TeethInputManager :=
  analyzeGesture (millis_analyze tk) (fst (updateButtonStates tk m)).

(** The managers the public interface can produce: [init] on any object,
    then any number of [checkInput] ticks (and [init] again). *)
Inductive reachable : TeethInputManager -> Prop :=
| reach_init : forall m0 pins, reachable (init m0 pins)
| reach_tick : forall tk m, reachable m -> reachable (snd (checkInput tk m)).

(** ** Notions of the specification *)

(** The session invariant: the active flag is set exactly when presses
    have been accumulated. *)
Definition session_inv (m : TeethInputManager) : Prop :=
  gestureActive m = true <-> currentGesture m <> [].

(** Number of distinct channel ids in a press sequence. *)
Definition unique_count (presses : list Z) : nat :=
  List.length (nodup Z.eq_dec presses).

(** [consecutive P l]: [P a b] for every two neighbours [a], [b] of [l],
    in that order. *)
Fixpoint consecutive (P : Z -> Z -> Prop) (l : list Z) : Prop :=
  match l with
  | a :: (b :: _) as tl => P a b /\ consecutive P tl
  | _ => True
  end.

(** Every two neighbours of the press order differ by exactly 1. *)
Definition adjacent_presses (presses : list Z) : Prop :=
  consecutive (fun a b => Z.abs (b - a) = 1) presses.

(** The [int] subtractions [sequence[i] - sequence[i-1]] stay in range
    (signed overflow has no defined result in C++). *)
Definition sub_defined (presses : list Z) : Prop :=
  consecutive (fun a b => in_int (b - a)) presses.

(** The raw level read in this tick is the one of the previous tick and
    the last raw change is more than [DEBOUNCE_TIME] old. *)
Definition stable_reading (now : Z) (reading : bool) (btn : ButtonState)
  : bool :=
  Bool.eqb reading (lastState btn) &&
  (ulong_sub now (lastChangeTime btn) >? DEBOUNCE_TIME).

(** A press edge: a stable pressed level on a button whose debounced
    level is released. *)
Definition press_edge (now : Z) (reading : bool) (btn : ButtonState) : bool :=
  stable_reading now reading btn && reading && negb (currentState btn).

(** The pins of the buttons with a press edge in one tick, in the order
    of the vector. *)
Fixpoint pressed_pins (now : Z) (rd : nat -> Z -> Z) (k : nat)
    (btns : list ButtonState) : list Z :=
  match btns with
  | [] => []
  | btn :: rest =>
      (if press_edge now (reading_of (rd k (pin btn))) btn
       then [pin btn] else [])
      ++ pressed_pins now rd (S k) rest
  end.

(** The four gesture names of the [TeethInput] declaration. *)
Definition named_gestures : list string :=
  ["single_click"; "long_press"; "multi_press"; "slide"]%string.


(** [init] has no failing path; its outcome as seen by the caller. *)
Inductive InitOutcome :=
| InitStarted (m : TeethInputManager)
| InitRefused.

Definition init_outcome (m : TeethInputManager) (buttonPins : list Z)
  : InitOutcome := InitStarted (init m buttonPins).

(** ** Sample configuration and ticks *)

(** An object before [init]: its fields are whatever the memory holds. *)
Definition raw_manager : TeethInputManager :=
  {| buttons := []; currentGesture := [7]; gestureStartTime := 12;
     lastButtonTime := 34; gestureActive := false |}.

(** The default pin list of [ConfigManager::setDefaults]. *)
Definition default_pins : list Z := [2; 4; 5; 18].

Definition started_manager : TeethInputManager := init raw_manager default_pins.

(** A tick at time [t] (both calls of [millis()]) in which exactly the
    pins of [low] read [LOW], i.e. are pressed. *)
Definition tick_at (t : Z) (low : list Z) : Tick :=
  {| millis_update := t; millis_analyze := t;
     digitalRead := fun _ p => if existsb (Z.eqb p) low then 0 else 1 |}.

(** Run a list of ticks, oldest first; the results returned, oldest
    first, and the final manager. *)
Fixpoint run_ticks (tks : list Tick) (m : TeethInputManager)
  : list TeethInput * TeethInputManager :=
  match tks with
  | [] => ([], m)
  | tk :: rest =>
      let '(r, m1) := checkInput tk m in
      let '(rs, m2) := run_ticks rest m1 in
      (r :: rs, m2)
  end.

(** Pin 2 read pressed at 1000 and 1060 ms, released at 1100 and 1160 ms:
    one debounced press at 1060 ms and its release. *)
Definition click_ticks : list Tick :=
  [tick_at 1000 [2]; tick_at 1060 [2]; tick_at 1100 []; tick_at 1160 []].

Definition clicked_manager : TeethInputManager :=
  snd (run_ticks click_ticks started_manager).

(** A session on pin 2 opened 206 ms before the millisecond counter
    overflows. *)
Definition wrapping_manager : TeethInputManager :=
  {| buttons := []; currentGesture := [2];
     gestureStartTime := 4294967090; lastButtonTime := 4294967090;
     gestureActive := true |}.

(** ** Further notions used in the properties *)

(** Every button's logical pressed flag agrees with its debounced level. *)
Definition buttons_consistent (m : TeethInputManager) : Prop :=
  Forall (fun b => isPressed b = currentState b) (buttons m).

(** Every accumulated press is the pin of a button of the vector. *)
Definition presses_configured (m : TeethInputManager) : Prop :=
  incl (currentGesture m) (map pin (buttons m)).

(** [isSlide] as the loop of lines 144-150 leaves it for a whole
    sequence (no pair to test below two elements). *)
Definition is_slide (sequence : list Z) : bool :=
  match sequence with
  | [] => true
  | first :: rest => slide_loop first rest
  end.

(** The readings of [millis()] over a run of ticks never go back and
    stay below 2^32: [t0] is a time not after the first tick. *)
Fixpoint clock_monotone (t0 : Z) (tks : list Tick) : Prop :=
  match tks with
  | [] => True
  | tk :: rest =>
      t0 <= millis_update tk /\
      millis_update tk <= millis_analyze tk /\
      millis_analyze tk < ULONG_MOD /\
      clock_monotone (millis_analyze tk) rest
  end.

(** While a session is open its start is not after its last press, which
    is not after the time [t]. *)
Definition stamps_ordered (t : Z) (m : TeethInputManager) : Prop :=
  gestureActive m = true ->
  0 <= gestureStartTime m /\ gestureStartTime m <= lastButtonTime m /\
  lastButtonTime m <= t.

(** * DualUDPSender: delivery statistics and connection state

    The part of [DualUDPSender.{h,cpp}] that is the firmware's own: the
    decision of [sendUDP], the four counters and the two time stamps.
    The sockets and the parsed addresses belong to the WiFi library; what
    the library answers during one send is an input. *)

Module UDP.

Record Sender := mkSender {
  questSentCount : Z;
  questFailCount : Z;
  pcSentCount : Z;
  pcFailCount : Z;
  lastQuestSuccess : Z;
  lastPCSuccess : Z
}.

Definition CONNECTION_TIMEOUT : Z := 10000.

(** The answers of the library during one call of [sendUDP]:
    [WiFi.status() == WL_CONNECTED], the results of [beginPacket] and
    [endPacket], and the number of bytes [write] reports. *)
Record Answers := mkAnswers {
  wifi_connected : bool;
  begin_ok : bool;
  bytes_written : Z;
  end_ok : bool
}.

(** [sendUDP] on a payload of [len] bytes. *)
Definition sendUDP (a : Answers) (len : Z) : bool :=
  if negb (wifi_connected a) then false
  else if negb (begin_ok a) then false
  else if negb (bytes_written a =? len) then false
  else if negb (end_ok a) then false
  else true.

(** [init]: the counters start at zero and both channels are stamped
    with the current time ([now1], [now2]: the two calls of
    [millis()]). *)
Definition init (now1 now2 : Z) : Sender :=
  {| questSentCount := 0; questFailCount := 0;
     pcSentCount := 0; pcFailCount := 0;
     lastQuestSuccess := now1; lastPCSuccess := now2 |}.

(** [sendToQuest]; [now] is what [millis()] returns if it is called. *)
Definition sendToQuest (a : Answers) (len now : Z) (s : Sender)
  : bool * Sender :=
  let success := sendUDP a len in
  (success,
   if success then
     {| questSentCount := wrap_ulong (questSentCount s + 1);
        questFailCount := questFailCount s;
        pcSentCount := pcSentCount s; pcFailCount := pcFailCount s;
        lastQuestSuccess := now; lastPCSuccess := lastPCSuccess s |}
   else
     {| questSentCount := questSentCount s;
        questFailCount := wrap_ulong (questFailCount s + 1);
        pcSentCount := pcSentCount s; pcFailCount := pcFailCount s;
        lastQuestSuccess := lastQuestSuccess s;
        lastPCSuccess := lastPCSuccess s |}).

Definition sendToPC (a : Answers) (len now : Z) (s : Sender)
  : bool * Sender :=
  let success := sendUDP a len in
  (success,
   if success then
     {| questSentCount := questSentCount s;
        questFailCount := questFailCount s;
        pcSentCount := wrap_ulong (pcSentCount s + 1);
        pcFailCount := pcFailCount s;
        lastQuestSuccess := lastQuestSuccess s; lastPCSuccess := now |}
   else
     {| questSentCount := questSentCount s;
        questFailCount := questFailCount s;
        pcSentCount := pcSentCount s;
        pcFailCount := wrap_ulong (pcFailCount s + 1);
        lastQuestSuccess := lastQuestSuccess s;
        lastPCSuccess := lastPCSuccess s |}).

Definition isQuestConnected (now : Z) (s : Sender) : bool :=
  ulong_sub now (lastQuestSuccess s) <? CONNECTION_TIMEOUT.

Definition isPCConnected (now : Z) (s : Sender) : bool :=
  ulong_sub now (lastPCSuccess s) <? CONNECTION_TIMEOUT.

(** A history of sends, oldest first. *)
Inductive Send :=
| ToQuest (a : Answers) (len now : Z)
| ToPC (a : Answers) (len now : Z).

Definition send (ev : Send) (s : Sender) : Sender :=
  match ev with
  | ToQuest a len now => snd (sendToQuest a len now s)
  | ToPC a len now => snd (sendToPC a len now s)
  end.

Fixpoint run_sends (evs : list Send) (s : Sender) : Sender :=
  match evs with
  | [] => s
  | ev :: rest => run_sends rest (send ev s)
  end.

(** The number of sends of a history on one channel ([quest] or PC)
    with one outcome. *)
Definition counts (quest ok : bool) (ev : Send) : bool :=
  match ev with
  | ToQuest a len _ => quest && Bool.eqb (sendUDP a len) ok
  | ToPC a len _ => negb quest && Bool.eqb (sendUDP a len) ok
  end.

Definition count_sends (quest ok : bool) (evs : list Send) : Z :=
  Z.of_nat (List.length (filter (counts quest ok) evs)).

(** The time of the last successful send of a history on one channel,
    [t0] if there is none. *)
Fixpoint last_success (quest : bool) (t0 : Z) (evs : list Send) : Z :=
  match evs with
  | [] => t0
  | ev :: rest =>
      last_success quest
        (match ev with
         | ToQuest a len now =>
             if quest && sendUDP a len then now else t0
         | ToPC a len now =>
             if negb quest && sendUDP a len then now else t0
         end) rest
  end.

Definition good : Answers :=
  {| wifi_connected := true; begin_ok := true; bytes_written := 20;
     end_ok := true |}.

Definition offline : Answers :=
  {| wifi_connected := false; begin_ok := true; bytes_written := 20;
     end_ok := true |}.

End UDP.

(** * ConfigManager: validity, device id and EEPROM storage

    [ConfigManager.{h,cpp}].  A [String] is a [string]; the EEPROM
    library is an interface ([Eeprom]) whose four operations the firmware
    calls, together with the laws of a byte array that the theorems on
    storage assume of it ([EepromLaws]). *)

Module Config.

Record ConfigManager := mkConfig {
  wifiSSID : string;
  wifiPassword : string;
  questIP : string;
  questPort : Z;
  pcIP : string;
  pcPort : Z;
  buttonPins : list Z;
  deviceID : string
}.

Definition EEPROM_SIZE : Z := 512.
Definition CONFIG_VERSION_ADDR : Z := 0.
Definition CONFIG_START_ADDR : Z := 4.
Definition CURRENT_CONFIG_VERSION : Z := 1.

(** [sizeof(int)], the step of [addr += sizeof(...)]. *)
Definition SIZEOF_INT : Z := 4.

(** [String::isEmpty]. *)
Definition isEmpty (s : string) : bool :=
  match s with EmptyString => true | String _ _ => false end.

Definition isValid (c : ConfigManager) : bool :=
  negb (isEmpty (wifiSSID c)) &&
  negb (isEmpty (wifiPassword c)) &&
  negb (isEmpty (questIP c)) &&
  negb (isEmpty (pcIP c)) &&
  (questPort c >? 0) && (questPort c <? 65536) &&
  (pcPort c >? 0) && (pcPort c <? 65536) &&
  negb (match buttonPins c with [] => true | _ :: _ => false end).

Definition setDefaults (c : ConfigManager) : ConfigManager :=
  {| wifiSSID := "YourWiFiName"; wifiPassword := "YourWiFiPassword";
     questIP := "192.168.1.100"; questPort := 8888;
     pcIP := "192.168.1.101"; pcPort := 9999;
     buttonPins := [2; 4; 5; 18];
     deviceID := deviceID c |}.

(** ** The device id *)

(** The digit [utoa] prints for [d < 16]. *)
Definition hex_digit (d : Z) : ascii :=
  ascii_of_N (Z.to_N (if d <? 10 then 48 + d else 87 + d)).

(** [String(v, HEX)] for a [uint8_t]: one or two lower-case digits, no
    leading zero. *)
Definition hex_of_byte (v : Z) : string :=
  if v <? 16 then String (hex_digit v) EmptyString
  else String (hex_digit (v / 16)) (String (hex_digit (v mod 16)) EmptyString).

(** [toupper] on one character, [String::toUpperCase] on a string. *)
Definition upper_char (ch : ascii) : ascii :=
  let n := Z.of_N (N_of_ascii ch) in
  if (97 <=? n) && (n <=? 122) then ascii_of_N (Z.to_N (n - 32)) else ch.

Fixpoint toUpperCase (s : string) : string :=
  match s with
  | EmptyString => EmptyString
  | String ch s' => String (upper_char ch) (toUpperCase s')
  end.

(** The loop over the six bytes of the MAC address. *)
Fixpoint append_mac (mac : list Z) (id : string) : string :=
  match mac with
  | [] => id
  | b :: rest =>
      let id1 := if b <? 16 then (id ++ "0")%string else id in
      append_mac rest (id1 ++ hex_of_byte b)%string
  end.

(** What one byte of the MAC address adds to the id. *)
Definition byte_digits (b : Z) : string :=
  (if b <? 16 then "0"%string else ""%string) ++ hex_of_byte b.

Definition generateDeviceID (mac : list Z) (c : ConfigManager)
  : ConfigManager :=
  {| wifiSSID := wifiSSID c; wifiPassword := wifiPassword c;
     questIP := questIP c; questPort := questPort c;
     pcIP := pcIP c; pcPort := pcPort c;
     buttonPins := buttonPins c;
     deviceID := toUpperCase (append_mac mac "ESP32_") |}.

(** A MAC address: six bytes. *)
Definition is_mac (mac : list Z) : Prop :=
  List.length mac = 6%nat /\ Forall (fun b => 0 <= b < 256) mac.

(** The value of an upper-case hexadecimal digit. *)
Definition hex_value (ch : ascii) : Z :=
  let n := Z.of_N (N_of_ascii ch) in
  if n <? 58 then n - 48 else n - 55.

(** Reading a device id back: two digits per byte after the prefix. *)
Fixpoint parse_hex_pairs (s : string) : list Z :=
  match s with
  | String hi (String lo rest) =>
      (16 * hex_value hi + hex_value lo) :: parse_hex_pairs rest
  | _ => []
  end.

Definition mac_of_id (id : string) : list Z :=
  parse_hex_pairs (String.substring 6 12 id).

(** The digits of byte [b], in upper case, are two and read back as
    [b]. *)
Definition digits_read_back (b : Z) : bool :=
  match toUpperCase (byte_digits b) with
  | String hi (String lo EmptyString) => 16 * hex_value hi + hex_value lo =? b
  | _ => false
  end.

(** The sixteen upper-case hexadecimal digits, by value. *)
Definition upper_hex_digit (d : Z) : ascii :=
  nth (Z.to_nat d) (list_ascii_of_string "0123456789ABCDEF") "0"%char.

(** A byte as two upper-case hexadecimal digits, high digit first. *)
Definition hex_pair (b : Z) : string :=
  String (upper_hex_digit (b / 16))
    (String (upper_hex_digit (b mod 16)) EmptyString).

(** A MAC address as the digits of its bytes, first byte first. *)
Fixpoint mac_hex (mac : list Z) : string :=
  match mac with
  | [] => EmptyString
  | b :: rest => hex_pair b ++ mac_hex rest
  end.

(** [ch] is one of 0-9, A-F. *)
Definition is_upper_hex (ch : ascii) : bool :=
  let n := Z.of_N (N_of_ascii ch) in
  ((48 <=? n) && (n <=? 57)) || ((65 <=? n) && (n <=? 70)).

(** What the firmware prints for byte [b] is [hex_pair b], made of
    upper-case hexadecimal digits that read back as [b]. *)
Definition digits_are_hex_pair (b : Z) : bool :=
  String.eqb (toUpperCase (byte_digits b)) (hex_pair b) &&
  forallb is_upper_hex (list_ascii_of_string (hex_pair b)) &&
  (16 * hex_value (upper_hex_digit (b / 16))
   + hex_value (upper_hex_digit (b mod 16)) =? b).

(** ** The EEPROM *)

(** [EEPROM.put(addr, int)], [EEPROM.get(addr, int&)] (the value the
    variable holds afterwards), [EEPROM.write(addr, byte)] and
    [EEPROM.read(addr)]. *)
Class Eeprom (E : Type) := {
  put_int : Z -> Z -> E -> E;
  get_int : Z -> E -> Z;
  write_byte : Z -> ascii -> E -> E;
  read_byte : Z -> E -> ascii
}.

(** An EEPROM of [size] bytes behaves as an array of bytes in which an
    [int] takes four: inside the array, what was stored is read back,
    and a store does not change what lies outside the bytes it
    writes. *)
Class EepromLaws (E : Type) `{Eeprom E} (size : Z) : Prop := {
  get_put_same : forall e a v,
    0 <= a -> a + 4 <= size -> in_int v -> get_int a (put_int a v e) = v;
  get_put_other : forall e a b v,
    a + 4 <= b \/ b + 4 <= a -> get_int a (put_int b v e) = get_int a e;
  get_write_other : forall e a b x,
    b < a \/ a + 4 <= b -> get_int a (write_byte b x e) = get_int a e;
  read_write_same : forall e a x,
    0 <= a < size -> read_byte a (write_byte a x e) = x;
  read_write_other : forall e a b x,
    a <> b -> read_byte a (write_byte b x e) = read_byte a e;
  read_put_other : forall e a b v,
    a < b \/ b + 4 <= a -> read_byte a (put_int b v e) = read_byte a e
}.

Section Storage.

Context {E : Type} `{Eeprom E}.

(** The loop of [writeStringToEEPROM]: [n] characters from [s]. *)
Fixpoint write_chars (n : nat) (addr : Z) (s : string) (e : E) : Z * E :=
  match n, s with
  | S n', String ch s' =>
      write_chars n' (wrap_int (addr + 1)) s' (write_byte addr ch e)
  | _, _ => (addr, e)
  end.

(** [writeStringToEEPROM(addr, str)]: the new [addr] and the EEPROM. *)
Definition writeStringToEEPROM (addr : Z) (str : string) (e : E) : Z * E :=
  let length := int_of_size (String.length str) in
  let e1 := put_int addr length e in
  let addr1 := wrap_int (addr + SIZEOF_INT) in
  write_chars (Z.to_nat length) addr1 str e1.

(** The loop of [readStringFromEEPROM]: [n] characters appended to
    [str]. *)
Fixpoint read_chars (n : nat) (addr : Z) (str : string) (e : E)
  : string * Z :=
  match n with
  | O => (str, addr)
  | S n' =>
      read_chars n' (wrap_int (addr + 1))
        (str ++ String (read_byte addr e) EmptyString)%string e
  end.

(** [readStringFromEEPROM(addr)]: the string and the new [addr]. *)
Definition readStringFromEEPROM (addr : Z) (e : E) : string * Z :=
  let length := get_int addr e in
  let addr1 := wrap_int (addr + SIZEOF_INT) in
  read_chars (Z.to_nat length) addr1 EmptyString e.

(** [for (int pin : buttonPins) { EEPROM.put(addr, pin); addr += 4; }] *)
Fixpoint write_pins (addr : Z) (pins : list Z) (e : E) : Z * E :=
  match pins with
  | [] => (addr, e)
  | p :: rest => write_pins (wrap_int (addr + SIZEOF_INT)) rest (put_int addr p e)
  end.

(** [saveToEEPROM]; [EEPROM.commit()] hands the array to the flash
    driver and is not modelled. *)
Definition saveToEEPROM (c : ConfigManager) (e : E) : E :=
  let e0 := put_int CONFIG_VERSION_ADDR CURRENT_CONFIG_VERSION e in
  let addr := CONFIG_START_ADDR in
  let '(addr, e1) := writeStringToEEPROM addr (wifiSSID c) e0 in
  let '(addr, e2) := writeStringToEEPROM addr (wifiPassword c) e1 in
  let '(addr, e3) := writeStringToEEPROM addr (questIP c) e2 in
  let e4 := put_int addr (questPort c) e3 in
  let addr := wrap_int (addr + SIZEOF_INT) in
  let '(addr, e5) := writeStringToEEPROM addr (pcIP c) e4 in
  let e6 := put_int addr (pcPort c) e5 in
  let addr := wrap_int (addr + SIZEOF_INT) in
  let buttonCount := int_of_size (List.length (buttonPins c)) in
  let e7 := put_int addr buttonCount e6 in
  let addr := wrap_int (addr + SIZEOF_INT) in
  snd (write_pins addr (buttonPins c) e7).

(** The loop [for (i = 0; i < buttonCount && i < 8; i++)], with [n] the
    number of its iterations. *)
Fixpoint read_pins (n : nat) (addr : Z) (e : E) : list Z :=
  match n with
  | O => []
  | S n' => get_int addr e :: read_pins n' (wrap_int (addr + SIZEOF_INT)) e
  end.

Definition loadFromEEPROM (e : E) (c : ConfigManager) : ConfigManager :=
  let version := get_int CONFIG_VERSION_ADDR e in
  if negb (version =? CURRENT_CONFIG_VERSION) then c
  else
    let addr := CONFIG_START_ADDR in
    let '(ssid, addr) := readStringFromEEPROM addr e in
    let '(password, addr) := readStringFromEEPROM addr e in
    let '(qip, addr) := readStringFromEEPROM addr e in
    let qport := get_int addr e in
    let addr := wrap_int (addr + SIZEOF_INT) in
    let '(pip, addr) := readStringFromEEPROM addr e in
    let pport := get_int addr e in
    let addr := wrap_int (addr + SIZEOF_INT) in
    let buttonCount := get_int addr e in
    let addr := wrap_int (addr + SIZEOF_INT) in
    {| wifiSSID := ssid; wifiPassword := password;
       questIP := qip; questPort := qport;
       pcIP := pip; pcPort := pport;
       buttonPins := read_pins (Z.to_nat (Z.min buttonCount 8)) addr e;
       deviceID := deviceID c |}.

(** [init]: [c] is the object before the call, [e] the EEPROM after
    [EEPROM.begin], [mac] the answer of [WiFi.macAddress]. *)
Definition init (mac : list Z) (e : E) (c : ConfigManager)
  : ConfigManager * E :=
  let c1 := loadFromEEPROM e c in
  let '(c2, e2) :=
    if negb (isValid c1)
    then (setDefaults c1, saveToEEPROM (setDefaults c1) e)
    else (c1, e) in
  (generateDeviceID mac c2, e2).

Definition setButtonPins (pins : list Z) (e : E) (c : ConfigManager)
  : ConfigManager * E :=
  let c1 :=
    {| wifiSSID := wifiSSID c; wifiPassword := wifiPassword c;
       questIP := questIP c; questPort := questPort c;
       pcIP := pcIP c; pcPort := pcPort c;
       buttonPins := pins; deviceID := deviceID c |} in
  (c1, saveToEEPROM c1 e).

End Storage.

(** The bytes [saveToEEPROM] needs for a configuration. *)
Definition stored_size (c : ConfigManager) : Z :=
  4 + (4 + Z.of_nat (String.length (wifiSSID c)))
    + (4 + Z.of_nat (String.length (wifiPassword c)))
    + (4 + Z.of_nat (String.length (questIP c))) + 4
    + (4 + Z.of_nat (String.length (pcIP c))) + 4
    + 4 + 4 * Z.of_nat (List.length (buttonPins c)).

(** A configuration that [saveToEEPROM] can store: it fits the EEPROM and
    its numbers are [int]s. *)
Definition storable (c : ConfigManager) : Prop :=
  stored_size c <= EEPROM_SIZE /\
  in_int (questPort c) /\ in_int (pcPort c) /\
  Forall in_int (buttonPins c).

(** What is written, in order: the cells of the layout. *)
Inductive Cell :=
| IntCell (v : Z)
| ByteCell (x : ascii).

Definition cell_size (cl : Cell) : Z :=
  match cl with IntCell _ => 4 | ByteCell _ => 1 end.

Fixpoint cells_size (cs : list Cell) : Z :=
  match cs with
  | [] => 0
  | cl :: rest => cell_size cl + cells_size rest
  end.

Fixpoint byte_cells (s : string) : list Cell :=
  match s with
  | EmptyString => []
  | String ch s' => ByteCell ch :: byte_cells s'
  end.

Definition string_cells (s : string) : list Cell :=
  IntCell (Z.of_nat (String.length s)) :: byte_cells s.

Definition layout (c : ConfigManager) : list Cell :=
  [IntCell CURRENT_CONFIG_VERSION]
  ++ string_cells (wifiSSID c) ++ string_cells (wifiPassword c)
  ++ string_cells (questIP c) ++ [IntCell (questPort c)]
  ++ string_cells (pcIP c) ++ [IntCell (pcPort c)]
  ++ [IntCell (Z.of_nat (List.length (buttonPins c)))]
  ++ map IntCell (buttonPins c).

(** The EEPROM holds the cells [cs] from address [a] on. *)
Fixpoint holds {E : Type} `{Eeprom E} (a : Z) (cs : list Cell) (e : E)
  : Prop :=
  match cs with
  | [] => True
  | IntCell v :: rest => get_int a e = v /\ holds (a + 4) rest e
  | ByteCell x :: rest => read_byte a e = x /\ holds (a + 1) rest e
  end.

(** [e'] still holds whatever [e] held below address [a]. *)
Definition keeps_below {E : Type} `{Eeprom E} (a : Z) (e e' : E) : Prop :=
  forall a0 cs,
    a0 + cells_size cs <= a -> holds a0 cs e -> holds a0 cs e'.

(** ** An EEPROM: 512 bytes, [int]s little-endian *)

Definition Bytes : Type := Z -> ascii.

Definition byte_of (v : Z) (k : Z) : ascii :=
  ascii_of_N (Z.to_N ((wrap_ulong v / 256 ^ k) mod 256)).

Definition byte_at (e : Bytes) (a : Z) : Z := Z.of_N (N_of_ascii (e a)).

Definition bytes_write (a : Z) (x : ascii) (e : Bytes) : Bytes :=
  if (0 <=? a) && (a <? EEPROM_SIZE)
  then fun i => if i =? a then x else e i
  else e.

Definition bytes_put (a v : Z) (e : Bytes) : Bytes :=
  if (0 <=? a) && (a + 4 <=? EEPROM_SIZE)
  then fun i =>
         if (a <=? i) && (i <? a + 4) then byte_of v (i - a) else e i
  else e.

Definition bytes_get (a : Z) (e : Bytes) : Z :=
  wrap_int (byte_at e a + 256 * byte_at e (a + 1)
            + 65536 * byte_at e (a + 2) + 16777216 * byte_at e (a + 3)).

#[global] Instance bytes_eeprom : Eeprom Bytes :=
  {| put_int := bytes_put; get_int := bytes_get;
     write_byte := bytes_write; read_byte := fun a e => e a |}.

(** An erased EEPROM. *)
Definition blank : Bytes := fun _ => ascii_of_N 255.

Definition fresh : ConfigManager :=
  {| wifiSSID := ""; wifiPassword := ""; questIP := ""; questPort := -7;
     pcIP := ""; pcPort := 70000; buttonPins := []; deviceID := "" |}.

Definition sample_mac : list Z := [36; 10; 196; 0; 171; 5].

Definition home : ConfigManager :=
  {| wifiSSID := "lab"; wifiPassword := "secret"; questIP := "10.0.0.7";
     questPort := 8888; pcIP := "10.0.0.9"; pcPort := 9999;
     buttonPins := [2; 4; 5; 18; 19; 21; 22; 23; 25; 26];
     deviceID := "" |}.

End Config.

(** * Properties *)

(** ** Machine arithmetic *)

Lemma wrap_int_id (z : Z) : in_int z -> wrap_int z = z.
Proof.
  unfold in_int, wrap_int, INT_MIN, INT_MAX, ULONG_MOD. intros Hz.
  rewrite Z.mod_small; lia.
Qed.

Lemma wrap_ulong_id (z : Z) : in_ulong z -> wrap_ulong z = z.
Proof.
  unfold in_ulong, wrap_ulong, ULONG_MOD. intros Hz.
  now rewrite Z.mod_small.
Qed.

Lemma wrap_ulong_range (z : Z) : in_ulong (wrap_ulong z).
Proof.
  unfold in_ulong, wrap_ulong, ULONG_MOD. apply Z.mod_pos_bound. lia.
Qed.

Lemma int_of_size_id (n : nat) :
  Z.of_nat n <= INT_MAX -> int_of_size n = Z.of_nat n.
Proof.
  intros Hn. apply wrap_int_id. unfold in_int, INT_MIN. lia.
Qed.

(** [abs] of [INT_MIN] wraps back to [INT_MIN], which is not 1 either. *)
Lemma int_abs_is_1 (z : Z) :
  in_int z -> (int_abs z =? 1) = true <-> Z.abs z = 1.
Proof.
  intros Hz. rewrite Z.eqb_eq. unfold int_abs.
  destruct (Z.eq_dec z INT_MIN) as [->|Hne].
  - vm_compute. split; discriminate.
  - rewrite wrap_int_id; [tauto|].
    unfold in_int, INT_MIN, INT_MAX in *. lia.
Qed.

Lemma abs_diff_is_1 (a b : Z) :
  in_int (b - a) ->
  (int_abs (int_sub b a) =? 1) = true <-> Z.abs (b - a) = 1.
Proof.
  intros H. unfold int_sub. rewrite (wrap_int_id _ H).
  now apply int_abs_is_1.
Qed.


Lemma ulong_sub_self (t : Z) : ulong_sub t t = 0.
Proof. unfold ulong_sub, wrap_ulong. now rewrite Z.sub_diag. Qed.

(** ** [std_sort] and [std_unique] *)

Lemma sort_insert_In (x y : Z) (l : list Z) :
  In y (sort_insert x l) <-> y = x \/ In y l.
Proof.
  induction l as [|z l IH]; simpl.
  - intuition.
  - destruct (x <=? z); simpl; rewrite ?IH; intuition.
Qed.

Lemma std_sort_In (y : Z) (l : list Z) : In y (std_sort l) <-> In y l.
Proof.
  induction l as [|x l IH]; simpl; [tauto|].
  rewrite sort_insert_In, IH. intuition.
Qed.

Lemma sort_insert_length (x : Z) (l : list Z) :
  List.length (sort_insert x l) = S (List.length l).
Proof.
  induction l as [|z l IH]; simpl; [reflexivity|].
  destruct (x <=? z); simpl; now rewrite ?IH.
Qed.

Lemma std_sort_length (l : list Z) : List.length (std_sort l) = List.length l.
Proof.
  induction l as [|x l IH]; simpl; [reflexivity|].
  now rewrite sort_insert_length, IH.
Qed.

Lemma sort_insert_sorted (x : Z) (l : list Z) :
  StronglySorted Z.le l -> StronglySorted Z.le (sort_insert x l).
Proof.
  induction 1 as [|z l Hs IH Hall]; simpl.
  - repeat constructor.
  - destruct (Z.leb_spec x z) as [Hle|Hgt].
    + constructor; [now constructor|].
      constructor; [exact Hle|].
      eapply Forall_impl; [|exact Hall]. intros; lia.
    + constructor; [exact IH|].
      apply Forall_forall. intros y Hy.
      apply sort_insert_In in Hy as [->|Hy]; [lia|].
      rewrite Forall_forall in Hall. now apply Hall.
Qed.

Lemma std_sort_sorted (l : list Z) : StronglySorted Z.le (std_sort l).
Proof.
  induction l as [|x l IH]; simpl; [constructor|].
  now apply sort_insert_sorted.
Qed.

(** On an ascending vector, the scan of [std::unique] leaves a strictly
    ascending one with the same members. *)
Lemma unique_from_sorted (l : list Z) : forall prev,
  StronglySorted Z.le (prev :: l) ->
  StronglySorted Z.lt (prev :: unique_from prev l) /\
  (forall y, In y (prev :: unique_from prev l) <-> In y (prev :: l)).
Proof.
  induction l as [|x l IH]; intros prev Hs; simpl.
  - split; [repeat constructor|tauto].
  - inversion Hs as [|? ? Hs' Hall]; subst.
    inversion Hall as [|? ? Hpx Hall']; subst.
    destruct (Z.eqb_spec x prev) as [->|Hne].
    + destruct (IH prev) as [IHs IHin].
      { constructor; [now inversion Hs'|exact Hall']. }
      split; [exact IHs|].
      intros y. specialize (IHin y). simpl in *. tauto.
    + destruct (IH x Hs') as [IHs IHin].
      split.
      * constructor; [exact IHs|].
        apply Forall_forall. intros y Hy.
        apply IHin in Hy.
        inversion Hs' as [|? ? _ Hallx]; subst.
        rewrite Forall_forall in Hallx.
        destruct Hy as [<-|Hy]; [lia|].
        specialize (Hallx _ Hy). lia.
      * intros y. specialize (IHin y). simpl in *. tauto.
Qed.

Lemma sorted_unique_sorted (v : list Z) : StronglySorted Z.lt (sorted_unique v).
Proof.
  unfold sorted_unique, std_unique.
  pose proof (std_sort_sorted v) as Hs.
  destruct (std_sort v) as [|x l]; [constructor|].
  now apply unique_from_sorted.
Qed.

Lemma sorted_unique_In (v : list Z) (y : Z) :
  In y (sorted_unique v) <-> In y v.
Proof.
  rewrite <- (std_sort_In y v).
  unfold sorted_unique, std_unique.
  pose proof (std_sort_sorted v) as Hs.
  destruct (std_sort v) as [|x l]; [tauto|].
  now apply unique_from_sorted.
Qed.

Lemma strictly_sorted_NoDup (l : list Z) : StronglySorted Z.lt l -> NoDup l.
Proof.
  induction 1 as [|x l Hs IH Hall]; constructor; [|exact IH].
  intros Hin. rewrite Forall_forall in Hall. specialize (Hall _ Hin). lia.
Qed.

(** The size of the deduplicated vector is the number of distinct ids. *)
Lemma sorted_unique_length (v : list Z) :
  List.length (sorted_unique v) = unique_count v.
Proof.
  unfold unique_count. apply Permutation_length.
  apply NoDup_Permutation.
  - apply strictly_sorted_NoDup, sorted_unique_sorted.
  - apply NoDup_nodup.
  - intros y. now rewrite sorted_unique_In, nodup_In.
Qed.

(** A strictly ascending list is determined by its members. *)
Lemma strictly_sorted_unique_repr (l1 l2 : list Z) :
  StronglySorted Z.lt l1 -> StronglySorted Z.lt l2 ->
  (forall y, In y l1 <-> In y l2) -> l1 = l2.
Proof.
  intros H1. revert l2.
  induction H1 as [|x l1 Hs1 IH Hall1]; intros l2 H2 Hin.
  - destruct l2 as [|y l2]; [reflexivity|].
    exfalso. apply (proj2 (Hin y)). now left.
  - destruct H2 as [|y l2 Hs2 Hall2].
    + exfalso. apply (proj1 (Hin x)). now left.
    + rewrite Forall_forall in Hall1, Hall2.
      assert (x = y) as ->.
      { destruct (proj1 (Hin x) (or_introl eq_refl)) as [->|Hx]; [reflexivity|].
        destruct (proj2 (Hin y) (or_introl eq_refl)) as [->|Hy]; [reflexivity|].
        specialize (Hall1 _ Hy). specialize (Hall2 _ Hx). lia. }
      f_equal. apply IH; [exact Hs2|].
      intros z. split; intros Hz.
      * destruct (proj1 (Hin z) (or_intror Hz)) as [<-|Hz']; [|exact Hz'].
        specialize (Hall1 _ Hz). lia.
      * destruct (proj2 (Hin z) (or_intror Hz)) as [<-|Hz']; [|exact Hz'].
        specialize (Hall2 _ Hz). lia.
Qed.

(** ** The classifier *)

(** [consecutive] speaks of the positions [i], [i + 1] of the vector. *)
Lemma consecutive_nth (P : Z -> Z -> Prop) (l : list Z) :
  consecutive P l <->
  (forall i a b,
      nth_error l i = Some a -> nth_error l (S i) = Some b -> P a b).
Proof.
  induction l as [|x l IH].
  - simpl. split; [|trivial]. intros _ [|i] a b; discriminate.
  - destruct l as [|y l].
    + simpl. split; [|trivial].
      intros _ [|i] a b Ha Hb; simpl in *; [discriminate|].
      destruct i; discriminate.
    + change (consecutive P (x :: y :: l))
        with (P x y /\ consecutive P (y :: l)).
      rewrite IH. split.
      * intros [Hxy Hrest] [|i] a b Ha Hb.
        -- simpl in Ha, Hb. now inversion Ha; inversion Hb; subst.
        -- exact (Hrest i a b Ha Hb).
      * intros H. split.
        -- exact (H 0%nat x y eq_refl eq_refl).
        -- intros i a b Ha Hb. exact (H (S i) a b Ha Hb).
Qed.

Lemma slide_loop_adjacent (rest : list Z) : forall first,
  sub_defined (first :: rest) ->
  slide_loop first rest = true <-> adjacent_presses (first :: rest).
Proof.
  unfold sub_defined, adjacent_presses.
  induction rest as [|x rest IH]; intros first Hdef.
  - simpl. tauto.
  - change (in_int (x - first) /\
            consecutive (fun a b => in_int (b - a)) (x :: rest)) in Hdef.
    destruct Hdef as [Hx Hdef].
    change (slide_loop first (x :: rest))
      with (if negb (int_abs (int_sub x first) =? 1) then false
            else slide_loop x rest).
    change (consecutive (fun a b => Z.abs (b - a) = 1) (first :: x :: rest))
      with (Z.abs (x - first) = 1 /\
            consecutive (fun a b => Z.abs (b - a) = 1) (x :: rest)).
    rewrite <- (IH x Hdef), <- (abs_diff_is_1 first x Hx).
    destruct (int_abs (int_sub x first) =? 1); simpl; intuition congruence.
Qed.

Lemma unique_count_le_length (presses : list Z) :
  (unique_count presses <= List.length presses)%nat.
Proof.
  unfold unique_count. apply NoDup_incl_length; [apply NoDup_nodup|].
  intros y Hy. now apply nodup_In in Hy.
Qed.

Lemma unique_count_pos (presses : list Z) :
  presses <> [] -> (1 <= unique_count presses)%nat.
Proof.
  destruct presses as [|x l]; [congruence|]. intros _.
  rewrite <- sorted_unique_length.
  assert (In x (sorted_unique (x :: l))) as Hin
    by (apply sorted_unique_In; now left).
  destruct (sorted_unique (x :: l)); [destruct Hin|simpl; lia].
Qed.

(** [getGestureType] on a non-empty sequence, with the sizes read as
    mathematical integers. *)
Lemma getGestureType_cases (first : Z) (rest : list Z) (d : Z) :
  Z.of_nat (unique_count (first :: rest)) <= INT_MAX ->
  getGestureType (first :: rest) d =
    let n := Z.of_nat (unique_count (first :: rest)) in
    if n =? 1 then
      if d >? LONG_PRESS_TIME then "long_press"%string
      else if int_of_size (List.length (first :: rest)) >? 1
           then "multi_press"%string
           else "single_click"%string
    else
      if slide_loop first rest &&
         (d <? ulong_mul SLIDE_MAX_INTERVAL (ulong_of_int n))
      then "slide"%string
      else "multi_press"%string.
Proof.
  intros Hn. unfold getGestureType.
  rewrite sorted_unique_length, (int_of_size_id _ Hn).
  pose proof (unique_count_pos (first :: rest)) as Hpos.
  cbv zeta.
  destruct (Z.eqb_spec (Z.of_nat (unique_count (first :: rest))) 1) as [|Hne];
    [reflexivity|].
  destruct (Z.gtb_spec (Z.of_nat (unique_count (first :: rest))) 1) as [|Hle];
    [reflexivity|].
  assert (first :: rest <> []) as Hnil by discriminate.
  specialize (Hpos Hnil). lia.
Qed.

Lemma slide_budget (n : nat) :
  SLIDE_MAX_INTERVAL * Z.of_nat n < ULONG_MOD ->
  ulong_mul SLIDE_MAX_INTERVAL (ulong_of_int (Z.of_nat n)) =
  SLIDE_MAX_INTERVAL * Z.of_nat n.
Proof.
  unfold ulong_mul, ulong_of_int, SLIDE_MAX_INTERVAL, ULONG_MOD. intros Hn.
  rewrite (wrap_ulong_id (Z.of_nat n)) by (unfold in_ulong, ULONG_MOD; lia).
  apply wrap_ulong_id. unfold in_ulong, ULONG_MOD. lia.
Qed.

(** The sequences of the specification's test list. *)
Example click_on_3 : getGestureType [3] 200 = "single_click"%string.
Proof. reflexivity. Qed.

Example hold_on_5 : getGestureType [5] 900 = "long_press"%string.
Proof. reflexivity. Qed.

Example triple_on_3 : getGestureType [3; 3; 3] 300 = "multi_press"%string.
Proof. reflexivity. Qed.

Example slide_2_3_4 : getGestureType [2; 3; 4] 250 = "slide"%string.
Proof. reflexivity. Qed.

(** A repeated press inside a slide breaks the adjacency of the raw
    order, and the budget counts distinct channels: [2,3,4] at 900 ms is
    already too slow. *)
Example repeat_breaks_slide :
  getGestureType [2; 2; 3] 100 = "multi_press"%string /\
  getGestureType [2; 3; 4] 899 = "slide"%string /\
  getGestureType [2; 3; 4] 900 = "multi_press"%string /\
  getGestureType [2; 3; 2; 3] 599 = "slide"%string /\
  getGestureType [2; 3; 2; 3] 600 = "multi_press"%string.
Proof. repeat split; reflexivity. Qed.

(** C1.  For a press sequence with more than one distinct channel,
    [getGestureType] answers "slide" exactly when every two neighbours of
    the press order (duplicates kept) differ by 1 in absolute value and
    the duration is below [SLIDE_MAX_INTERVAL] (300 ms) times the number
    of distinct channels; every other such sequence is "multi_press".
    The order [2,4] is "multi_press", never "slide", whatever the
    duration.  The two side conditions say that the machine arithmetic
    does what the mathematics says: the [int] subtractions of neighbours
    do not overflow and the [unsigned long] product does not wrap. *)
Theorem slide_iff_adjacent_within_budget (presses : list Z) (d : Z) :
  (1 < unique_count presses)%nat ->
  sub_defined presses ->
  SLIDE_MAX_INTERVAL * Z.of_nat (unique_count presses) < ULONG_MOD ->
  SLIDE_MAX_INTERVAL = 300 /\
  (getGestureType presses d = "slide"%string <->
   adjacent_presses presses /\
   d < SLIDE_MAX_INTERVAL * Z.of_nat (unique_count presses)) /\
  (getGestureType presses d <> "slide"%string ->
   getGestureType presses d = "multi_press"%string) /\
  (forall d', getGestureType [2; 4] d' = "multi_press"%string /\
              getGestureType [2; 4] d' <> "slide"%string).
Proof.
  intros Hmany Hdef Hbudget.
  split; [reflexivity|].
  assert (forall d', getGestureType [2; 4] d' = "multi_press"%string) as H24
    by (intros d'; reflexivity).
  assert (Hlast : forall d', getGestureType [2; 4] d' = "multi_press"%string /\
                             getGestureType [2; 4] d' <> "slide"%string)
    by (intros d'; rewrite H24; split; [reflexivity|discriminate]).
  destruct presses as [|first rest]; [unfold unique_count in Hmany; simpl in Hmany; lia|].
  assert (Z.of_nat (unique_count (first :: rest)) <= INT_MAX) as Hint
    by (unfold SLIDE_MAX_INTERVAL, ULONG_MOD, INT_MAX in *; lia).
  rewrite (getGestureType_cases first rest d Hint). cbv zeta.
  rewrite (slide_budget _ Hbudget).
  destruct (Z.eqb_spec (Z.of_nat (unique_count (first :: rest))) 1) as [|_];
    [lia|].
  pose proof (slide_loop_adjacent rest first Hdef) as Hadj.
  destruct (slide_loop first rest); cbn [andb].
  - destruct (Z.ltb_spec d
                (SLIDE_MAX_INTERVAL * Z.of_nat (unique_count (first :: rest))))
      as [Hlt|Hge].
    + split; [|split; [congruence|exact Hlast]].
      split; [intros _; split; [now apply Hadj|exact Hlt]|reflexivity].
    + split; [|split; [reflexivity|exact Hlast]].
      split; [discriminate|]. intros [_ Hlt]. lia.
  - split; [|split; [reflexivity|exact Hlast]].
    split; [discriminate|].
    intros [Hcontra _]. apply Hadj in Hcontra. discriminate.
Qed.

Lemma slide_iff_adjacent_within_budget_witness :
  (1 < unique_count [2; 3; 4]%Z)%nat /\
  sub_defined [2; 3; 4] /\
  (getGestureType [2; 3; 4] 250 = "slide"%string <->
   adjacent_presses [2; 3; 4] /\
   250 < SLIDE_MAX_INTERVAL * Z.of_nat (unique_count [2; 3; 4])).
Proof.
  assert ((1 < unique_count [2; 3; 4]%Z)%nat) as H1 by (vm_compute; lia).
  assert (sub_defined [2; 3; 4]) as H2 by (vm_compute; intuition discriminate).
  assert (SLIDE_MAX_INTERVAL * Z.of_nat (unique_count [2; 3; 4]) < ULONG_MOD)
    as H3 by (vm_compute; reflexivity).
  split; [exact H1|]. split; [exact H2|].
  exact (proj1 (proj2
    (slide_iff_adjacent_within_budget [2; 3; 4] 250 H1 H2 H3))).
Defined.

(** C2.  For a press sequence on a single channel, [getGestureType]
    answers "long_press" when the duration exceeds [LONG_PRESS_TIME]
    (800 ms), whatever the number of presses, because that test comes
    first; otherwise "multi_press" when the channel was pressed more than
    once and "single_click" when it was pressed once. *)
Theorem single_channel_gesture (presses : list Z) (d : Z) :
  unique_count presses = 1%nat ->
  LONG_PRESS_TIME = 800 /\
  (LONG_PRESS_TIME < d ->
   getGestureType presses d = "long_press"%string) /\
  (Z.of_nat (List.length presses) <= INT_MAX ->
   d <= LONG_PRESS_TIME ->
   getGestureType presses d =
     if (1 <? List.length presses)%nat
     then "multi_press"%string else "single_click"%string).
Proof.
  intros Hone. split; [reflexivity|].
  destruct presses as [|first rest]; [discriminate|].
  assert (Z.of_nat (unique_count (first :: rest)) <= INT_MAX) as Hint
    by (rewrite Hone; vm_compute; discriminate).
  rewrite (getGestureType_cases first rest d Hint). cbv zeta.
  rewrite Hone. change (Z.of_nat 1 =? 1) with true. cbv iota.
  split.
  - intros Hlong. destruct (Z.gtb_spec d LONG_PRESS_TIME); [reflexivity|lia].
  - intros Hlen Hshort.
    destruct (Z.gtb_spec d LONG_PRESS_TIME); [lia|].
    rewrite (int_of_size_id _ Hlen).
    destruct (Z.gtb_spec (Z.of_nat (List.length (first :: rest))) 1);
      destruct (Nat.ltb_spec 1 (List.length (first :: rest)));
      try reflexivity; lia.
Qed.

Lemma single_channel_gesture_witness :
  unique_count [3; 3; 3] = 1%nat /\
  getGestureType [3; 3; 3] 900 = "long_press"%string /\
  getGestureType [3; 3; 3] 300 = "multi_press"%string.
Proof.
  assert (unique_count [3; 3; 3] = 1%nat) as H1 by reflexivity.
  destruct (single_channel_gesture [3; 3; 3] 900 H1) as (_ & Hlong & _).
  destruct (single_channel_gesture [3; 3; 3] 300 H1) as (_ & _ & Hshort).
  split; [exact H1|]. split.
  - apply Hlong. reflexivity.
  - apply Hshort; vm_compute; discriminate.
Defined.

(** C10.  For a non-empty press sequence and any duration,
    [getGestureType] answers one of "single_click", "long_press",
    "multi_press", "slide" and never "unknown": [uniqueCount] is at
    least 1, so the final [return "unknown"] is not reached.  (The bound
    on the size is the one under which [int n = v.size()] keeps the
    size.) *)
Theorem nonempty_never_unknown (presses : list Z) (d : Z) :
  presses <> [] ->
  Z.of_nat (List.length presses) <= INT_MAX ->
  1 <= int_of_size (List.length (sorted_unique presses)) /\
  In (getGestureType presses d) named_gestures /\
  getGestureType presses d <> "unknown"%string.
Proof.
  intros Hne Hlen.
  pose proof (unique_count_pos presses Hne) as Hpos.
  pose proof (unique_count_le_length presses) as Hle.
  assert (Z.of_nat (unique_count presses) <= INT_MAX) as Hint by lia.
  split.
  - rewrite sorted_unique_length, (int_of_size_id _ Hint). lia.
  - destruct presses as [|first rest]; [congruence|].
    rewrite (getGestureType_cases first rest d Hint). cbv zeta.
    unfold named_gestures.
    repeat match goal with
           | |- context [if ?c then _ else _] => destruct c
           end;
      (split; [simpl; tauto|discriminate]).
Qed.

Lemma nonempty_never_unknown_witness :
  In (getGestureType [5] 900) named_gestures /\
  getGestureType [5] 900 <> "unknown"%string.
Proof.
  assert ([5] <> []) as H1 by discriminate.
  assert (Z.of_nat (List.length [5]) <= INT_MAX) as H2
    by (vm_compute; discriminate).
  exact (proj2 (nonempty_never_unknown [5] 900 H1 H2)).
Defined.

(** ** The sampler: debounce *)

(** Name the three components of the rest of the loop. *)
Ltac destruct_loop :=
  match goal with
  | |- context [update_loop ?now ?rd ?k ?btns ?m] =>
      destruct (update_loop now rd k btns m) as [[? ?] ?]
  end.

(** The loop body by cases: an edge is taken exactly on a stable reading
    that differs from the debounced level; otherwise only [lastState]
    and, on a raw change, [lastChangeTime] are written. *)
Lemma update_button_cases (now : Z) (reading : bool)
    (btn : ButtonState) (m : TeethInputManager) :
  update_button now reading btn m =
    if stable_reading now reading btn &&
       negb (Bool.eqb reading (currentState btn))
    then
      if reading then
        ({| pin := pin btn; currentState := true; lastState := true;
            pressStartTime := now; lastChangeTime := lastChangeTime btn;
            isPressed := true |},
         record_press now (pin btn) m,
         [EdgePressed (pin btn)])
      else
        ({| pin := pin btn; currentState := false; lastState := false;
            pressStartTime := pressStartTime btn;
            lastChangeTime := lastChangeTime btn;
            isPressed := false |},
         m,
         [EdgeReleased (pin btn) (ulong_sub now (pressStartTime btn))])
    else
      ({| pin := pin btn; currentState := currentState btn;
          lastState := reading;
          pressStartTime := pressStartTime btn;
          lastChangeTime :=
            if Bool.eqb reading (lastState btn)
            then lastChangeTime btn else now;
          isPressed := isPressed btn |},
       m, []).
Proof.
  unfold update_button, stable_reading.
  destruct btn as [p cs ls ps lc ip]; simpl.
  destruct (Bool.eqb reading ls) eqn:Hflip; simpl.
  - destruct (ulong_sub now lc >? DEBOUNCE_TIME); simpl; [|reflexivity].
    destruct reading, cs; reflexivity.
  - rewrite ulong_sub_self. reflexivity.
Qed.

Lemma update_loop_presses (now : Z) (rd : nat -> Z -> Z)
    (btns : list ButtonState) : forall k m,
  currentGesture (snd (fst (update_loop now rd k btns m))) =
  currentGesture m ++ pressed_pins now rd k btns.
Proof.
  induction btns as [|btn rest IH]; intros k m; simpl.
  - now rewrite app_nil_r.
  - rewrite update_button_cases. unfold press_edge.
    destruct (stable_reading now (reading_of (rd k (pin btn))) btn); simpl.
    + destruct (reading_of (rd k (pin btn))), (currentState btn); simpl;
        specialize (IH (S k));
        match goal with
        | |- context [update_loop now rd (S k) rest ?m1] =>
            specialize (IH m1);
            destruct (update_loop now rd (S k) rest m1) as [[? ?] ?]
        end; simpl in *; rewrite IH; simpl;
        rewrite <- ?app_assoc; reflexivity.
    + specialize (IH (S k) m).
      destruct_loop.
      simpl in *. exact IH.
Qed.

Lemma update_loop_nth (now : Z) (rd : nat -> Z -> Z)
    (btns : list ButtonState) : forall k m i btn,
  nth_error btns i = Some btn ->
  exists mi,
    nth_error (fst (fst (update_loop now rd k btns m))) i =
    Some (fst (fst (update_button now
                      (reading_of (rd (k + i)%nat (pin btn))) btn mi))).
Proof.
  induction btns as [|b rest IH]; intros k m i btn Hnth.
  - destruct i; discriminate.
  - simpl.
    destruct (update_button now (reading_of (rd k (pin b))) b m)
      as [[b' m1] log1] eqn:Hb.
    destruct (update_loop now rd (S k) rest m1) as [[rest' m2] log2] eqn:Hr.
    destruct i as [|i]; simpl in *.
    + inversion Hnth; subst. exists m. rewrite Nat.add_0_r, Hb. reflexivity.
    + destruct (IH (S k) m1 i btn Hnth) as [mi Hmi].
      rewrite Hr in Hmi. simpl in Hmi. exists mi.
      now rewrite Nat.add_succ_r.
Qed.



Lemma updateButtonStates_presses (tk : Tick) (m : TeethInputManager) :
  currentGesture (fst (updateButtonStates tk m)) =
  currentGesture m ++
  pressed_pins (millis_update tk) (digitalRead tk) 0 (buttons m).
Proof.
  rewrite <- update_loop_presses. unfold updateButtonStates.
  now destruct_loop.
Qed.





(** The level read from 1000 ms on is not yet taken over at 1050 ms and
    is taken over at 1051 ms. *)
Example debounce_boundary :
  let btn := fst (fst (update_button 1000 true (init_button 2) started_manager)) in
  update_button 1050 true btn started_manager = (btn, started_manager, []) /\
  snd (update_button 1051 true btn started_manager) = [EdgePressed 2].
Proof. split; reflexivity. Qed.

(** ** The session invariant *)

Lemma resetGesture_inv (m : TeethInputManager) : session_inv (resetGesture m).
Proof. unfold session_inv; simpl. split; [discriminate|congruence]. Qed.

Lemma record_press_inv (now p : Z) (m : TeethInputManager) :
  session_inv (record_press now p m).
Proof.
  unfold session_inv; simpl. split.
  - intros _ Hnil. now apply app_eq_nil in Hnil as [_ Hnil].
  - intros _. now destruct (gestureActive m).
Qed.

Lemma update_button_inv (now : Z) (reading : bool)
    (btn : ButtonState) (m : TeethInputManager) :
  session_inv m ->
  session_inv (snd (fst (update_button now reading btn m))).
Proof.
  intros Hinv. rewrite update_button_cases.
  destruct (stable_reading now reading btn &&
            negb (Bool.eqb reading (currentState btn)));
    [destruct reading|]; simpl; auto using record_press_inv.
Qed.

Lemma update_loop_inv (now : Z) (rd : nat -> Z -> Z)
    (btns : list ButtonState) : forall k m,
  session_inv m -> session_inv (snd (fst (update_loop now rd k btns m))).
Proof.
  induction btns as [|btn rest IH]; intros k m Hinv; simpl; [exact Hinv|].
  pose proof (update_button_inv now (reading_of (rd k (pin btn))) btn m Hinv)
    as H1.
  destruct (update_button now (reading_of (rd k (pin btn))) btn m)
    as [[b' m1] l1].
  specialize (IH (S k) m1 H1).
  now destruct_loop.
Qed.

Lemma updateButtonStates_inv (tk : Tick) (m : TeethInputManager) :
  session_inv m -> session_inv (fst (updateButtonStates tk m)).
Proof.
  intros Hinv.
  pose proof (update_loop_inv (millis_update tk) (digitalRead tk)
                (buttons m) 0 m Hinv) as H.
  unfold updateButtonStates.
  now destruct_loop.
Qed.

Lemma analyzeGesture_inv (now : Z) (m : TeethInputManager) :
  session_inv m -> session_inv (snd (analyzeGesture now m)).
Proof.
  intros Hinv. unfold analyzeGesture.
  destruct (gesture_complete now m); simpl;
    [apply resetGesture_inv|exact Hinv].
Qed.

Lemma checkInput_inv (tk : Tick) (m : TeethInputManager) :
  session_inv m -> session_inv (snd (checkInput tk m)).
Proof.
  intros Hinv. unfold checkInput.
  now apply analyzeGesture_inv, updateButtonStates_inv.
Qed.

Lemma reachable_inv (m : TeethInputManager) : reachable m -> session_inv m.
Proof.
  induction 1 as [m0 pins|tk m _ IH].
  - apply resetGesture_inv.
  - now apply checkInput_inv.
Qed.

Lemma gesture_complete_spec (now : Z) (m : TeethInputManager) :
  gesture_complete now m = true <->
  gestureActive m = true /\ anyPressed (buttons m) = false /\
  MULTI_PRESS_WINDOW < ulong_sub now (lastButtonTime m).
Proof.
  unfold gesture_complete.
  rewrite !andb_true_iff, negb_true_iff, Z.gtb_ltb, Z.ltb_lt. tauto.
Qed.

(** C9.  [init], [resetGesture] and every tick of [checkInput] (its
    sampling half [updateButtonStates] included) keep the invariant
    "[gestureActive] is set if and only if [currentGesture] is not
    empty"; it therefore holds of every reachable manager, and a session
    that completes does so with at least one press and returns a valid
    gesture. *)
Theorem session_active_iff_presses :
  (forall m0 pins, session_inv (init m0 pins)) /\
  (forall m, session_inv (resetGesture m)) /\
  (forall tk m, session_inv m -> session_inv (fst (updateButtonStates tk m))) /\
  (forall tk m, session_inv m -> session_inv (snd (checkInput tk m))) /\
  (forall m, reachable m -> session_inv m) /\
  (forall tk m,
      reachable m ->
      gesture_complete (millis_analyze tk) (fst (updateButtonStates tk m))
      = true ->
      currentGesture (fst (updateButtonStates tk m)) <> [] /\
      isValid (fst (checkInput tk m)) = true).
Proof.
  split; [intros; apply resetGesture_inv|].
  split; [apply resetGesture_inv|].
  split; [apply updateButtonStates_inv|].
  split; [apply checkInput_inv|].
  split; [apply reachable_inv|].
  intros tk m Hr Hc.
  pose proof (updateButtonStates_inv tk m (reachable_inv m Hr)) as Hinv.
  pose proof (proj1 (gesture_complete_spec _ _) Hc) as (Hact & _ & _).
  pose proof (proj1 Hinv Hact) as Hne.
  split; [exact Hne|].
  unfold checkInput, analyzeGesture. rewrite Hc. simpl.
  destruct (currentGesture (fst (updateButtonStates tk m)));
    [congruence|reflexivity].
Qed.

Lemma session_active_iff_presses_witness :
  session_inv clicked_manager /\
  session_inv (snd (checkInput (tick_at 1561 []) clicked_manager)).
Proof.
  assert (session_inv clicked_manager) as H.
  { vm_compute. split; [discriminate|reflexivity]. }
  split; [exact H|].
  exact (proj1 (proj2 (proj2 (proj2 session_active_iff_presses)))
           (tick_at 1561 []) clicked_manager H).
Defined.

(** ** Completion of a session *)




(** ** The result of a completed session *)

Lemma analyzeGesture_complete (now : Z) (m : TeethInputManager) :
  gesture_complete now m = true ->
  analyzeGesture now m =
  (classify (currentGesture m) (ulong_sub now (gestureStartTime m)),
   resetGesture m).
Proof. intros Hc. unfold analyzeGesture. now rewrite Hc. Qed.

(** The spec's example: 900 ms is returned as the [float] nearest to
    0.9, namely 15099494 * 2^-24, which is within half a unit in the
    last place: |15099494 / 2^24 - 9 / 10| <= 2^-25. *)
Lemma seconds_of_900_ms :
  seconds_of_millis 900 = S754_finite false 15099494 (-24) /\
  2 * Z.abs (10 * 15099494 - 9 * 2 ^ 24) <= 10.
Proof. split; [reflexivity|vm_compute; discriminate]. Qed.

(** ** Accuracy of [seconds_of_millis]

    [totalDuration / 1000.0] goes through three roundings: the
    conversion of the [unsigned long] to [double] (exact), the [double]
    division, and the conversion of the quotient to [float].  Each is
    followed through [SpecFloat]'s rounding functions. *)

(** *** Digits, shifts and rounding *)

Lemma digits2_pos_bounds (p : positive) :
  2 ^ (Zpos (digits2_pos p) - 1) <= Zpos p < 2 ^ Zpos (digits2_pos p).
Proof.
  induction p as [p IH|p IH|]; cbn [digits2_pos].
  - rewrite Pos2Z.inj_succ.
    replace (Z.succ (Zpos (digits2_pos p)) - 1)
      with (Z.succ (Zpos (digits2_pos p) - 1)) by lia.
    rewrite !Z.pow_succ_r by lia. lia.
  - rewrite Pos2Z.inj_succ.
    replace (Z.succ (Zpos (digits2_pos p)) - 1)
      with (Z.succ (Zpos (digits2_pos p) - 1)) by lia.
    rewrite !Z.pow_succ_r by lia. lia.
  - split; vm_compute; congruence.
Qed.

Lemma digits2_pos_unique (p : positive) (d : Z) :
  2 ^ (d - 1) <= Zpos p < 2 ^ d -> Zpos (digits2_pos p) = d.
Proof.
  intros [Hlo Hhi].
  destruct (digits2_pos_bounds p) as [Blo Bhi].
  assert (0 < d) as Hd.
  { destruct (Z.lt_trichotomy d 0) as [Hn|[->|Hp]]; [|simpl in Hhi; lia|lia].
    rewrite Z.pow_neg_r in Hhi by lia. lia. }
  assert (Zpos (digits2_pos p) - 1 < d) as H1.
  { apply (Z.pow_lt_mono_r_iff 2); lia. }
  assert (d - 1 < Zpos (digits2_pos p)) as H2.
  { apply (Z.pow_lt_mono_r_iff 2); lia. }
  lia.
Qed.

Lemma shr_1_m (mrs : shr_record) :
  0 <= shr_m mrs -> shr_m (shr_1 mrs) = shr_m mrs / 2 /\ 0 <= shr_m (shr_1 mrs).
Proof.
  destruct mrs as [m r s]. cbn [shr_m]. intros Hm.
  destruct m as [|[p|p|]|p]; cbn [shr_1 shr_m]; try lia;
    (split; [Z.div_mod_to_equations; lia|lia]).
Qed.

Lemma pow2_xI (p : positive) :
  2 ^ Zpos p~1 = 2 * (2 ^ Zpos p * 2 ^ Zpos p).
Proof.
  change (Zpos p~1) with (2 * Zpos p + 1).
  replace (2 * Zpos p + 1) with (Z.succ (2 * Zpos p)) by lia.
  rewrite Z.pow_succ_r by lia. now rewrite Z.pow_twice_r.
Qed.

Lemma pow2_xO (p : positive) : 2 ^ Zpos p~0 = 2 ^ Zpos p * 2 ^ Zpos p.
Proof. change (Zpos p~0) with (2 * Zpos p). apply Z.pow_twice_r. Qed.

Lemma iter_shr_1_m (p : positive) : forall mrs,
  0 <= shr_m mrs ->
  shr_m (SpecFloat.iter_pos shr_1 p mrs) = shr_m mrs / 2 ^ Zpos p /\
  0 <= shr_m (SpecFloat.iter_pos shr_1 p mrs).
Proof.
  induction p as [p IH|p IH|]; intros mrs Hm; cbn [SpecFloat.iter_pos].
  - destruct (shr_1_m mrs Hm) as [E1 P1].
    destruct (IH _ P1) as [E2 P2]. destruct (IH _ P2) as [E3 P3].
    split; [|exact P3]. rewrite E3, E2, E1.
    assert (0 < 2 ^ Zpos p) by (apply Z.pow_pos_nonneg; lia).
    rewrite !Z.div_div by lia. now rewrite pow2_xI, Z.mul_assoc.
  - destruct (IH _ Hm) as [E2 P2]. destruct (IH _ P2) as [E3 P3].
    split; [|exact P3]. rewrite E3, E2.
    assert (0 < 2 ^ Zpos p) by (apply Z.pow_pos_nonneg; lia).
    rewrite !Z.div_div by lia. now rewrite pow2_xO.
  - destruct (shr_1_m mrs Hm) as [E1 P1]. split; [|exact P1].
    rewrite E1. reflexivity.
Qed.

Lemma round_nearest_even_range (m : Z) (l : location) :
  round_nearest_even m l = m \/ round_nearest_even m l = m + 1.
Proof.
  destruct l as [|[| |]]; cbn; auto. destruct (Z.even m); auto.
Qed.

Lemma loc_of_record_of_loc (m : Z) (l : location) :
  loc_of_shr_record (shr_record_of_loc m l) = l /\
  shr_m (shr_record_of_loc m l) = m.
Proof. destruct l as [|[| |]]; split; reflexivity. Qed.

(** The second pass of [binary_round_aux]: a mantissa of [prec] digits is
    kept, the mantissa [2^prec] is halved. *)
Lemma round_finish (prec emax : Z) (s : bool) (m1 e' : Z) :
  0 < prec -> 3 - emax - prec <= e' -> e' + 1 <= emax - prec ->
  2 ^ (prec - 1) <= m1 <= 2 ^ prec ->
  exists m j,
    (let '(mrs'', e'') := shr_fexp prec emax m1 e' loc_Exact in
     match shr_m mrs'' with
     | Z0 => S754_zero s
     | Zpos m => if Z.leb e'' (emax - prec) then S754_finite s m e''
                 else S754_infinity s
     | _ => S754_nan
     end) = S754_finite s m (e' + j) /\
    (j = 0 \/ j = 1) /\
    2 ^ (prec - 1) <= Zpos m < 2 ^ prec /\
    Zpos m * 2 ^ j = m1 /\
    (m1 < 2 ^ prec -> j = 0).
Proof.
  intros Hprec Hmin Hmax [Hlo Hhi].
  assert (0 < 2 ^ (prec - 1)) as Hpos by (apply Z.pow_pos_nonneg; lia).
  assert (2 ^ prec = 2 * 2 ^ (prec - 1)) as Hpow.
  { replace prec with (Z.succ (prec - 1)) at 1 by lia.
    apply Z.pow_succ_r. lia. }
  destruct m1 as [|p1|p1]; try lia.
  unfold shr_fexp. cbn [Zdigits2]. unfold fexp, emin.
  destruct (Z.lt_ge_cases (Zpos p1) (2 ^ prec)) as [Hlt|Hge].
  - rewrite (digits2_pos_unique p1 prec) by lia.
    rewrite Z.max_l by lia.
    replace (prec + e' - prec - e') with 0 by lia.
    cbn [shr shr_record_of_loc shr_m].
    destruct (Z.leb_spec e' (emax - prec)); [|lia].
    exists p1, 0. rewrite Z.add_0_r. repeat split; auto; lia.
  - assert (Zpos p1 = 2 ^ prec) as Heq by lia.
    rewrite (digits2_pos_unique p1 (prec + 1)).
    2:{ replace (prec + 1 - 1) with prec by lia.
        replace (prec + 1) with (Z.succ prec) by lia.
        rewrite Z.pow_succ_r by lia. lia. }
    rewrite Z.max_l by lia.
    replace (prec + 1 + e' - prec - e') with 1 by lia.
    cbn [shr shr_record_of_loc SpecFloat.iter_pos].
    destruct (shr_1_m {| shr_m := Zpos p1; shr_r := false; shr_s := false |})
      as [E1 _]; [cbn; lia|].
    cbn [shr_m] in E1. rewrite E1, Heq, Hpow.
    rewrite (Z.mul_comm 2), Z.div_mul by lia.
    destruct (2 ^ (prec - 1)) as [|m|m] eqn:Em; try lia.
    destruct (Z.leb_spec (e' + 1) (emax - prec)); [|lia].
    exists m, 1. repeat split; try lia.
Qed.

Lemma binary_round_aux_faithful (prec emax : Z) (s : bool) (p : positive)
    (ex : Z) (lx : location) :
  let d := Zpos (digits2_pos p) in
  0 < prec -> prec <= d ->
  3 - emax - prec <= d + ex - prec ->
  ex + (d - prec) + 1 <= emax - prec ->
  exists m j,
    binary_round_aux prec emax s (Zpos p) ex lx =
    S754_finite s m (ex + (d - prec) + j) /\
    (j = 0 \/ j = 1) /\
    2 ^ (prec - 1) <= Zpos m < 2 ^ prec /\
    Z.abs (Zpos m * 2 ^ (d - prec + j) - Zpos p) <= 2 ^ (d - prec) /\
    (lx = loc_Exact -> d = prec -> m = p /\ j = 0).
Proof.
  intros d Hprec Hd Hmin Hmax.
  pose proof (digits2_pos_bounds p) as [Blo Bhi]. fold d in Blo, Bhi.
  set (k := d - prec) in *.
  assert (0 <= k) as Hk by (subst k; lia).
  assert (0 < 2 ^ k) as HP by (apply Z.pow_pos_nonneg; lia).
  assert (2 ^ d = 2 ^ prec * 2 ^ k) as Hd1.
  { rewrite <- Z.pow_add_r by lia. f_equal. subst k. lia. }
  assert (2 ^ (d - 1) = 2 ^ (prec - 1) * 2 ^ k) as Hd2.
  { rewrite <- Z.pow_add_r by lia. f_equal. subst k. lia. }
  set (f := Zpos p / 2 ^ k).
  assert (f * 2 ^ k <= Zpos p < (f + 1) * 2 ^ k) as Hf.
  { subst f. pose proof (Z.div_mod (Zpos p) (2 ^ k) ltac:(lia)) as Hdm.
    pose proof (Z.mod_pos_bound (Zpos p) (2 ^ k) HP). lia. }
  assert (2 ^ (prec - 1) <= f < 2 ^ prec) as Hfr.
  { subst f. split.
    - apply Z.div_le_lower_bound; lia.
    - apply Z.div_lt_upper_bound; lia. }
  unfold binary_round_aux.
  assert (exists mrs',
            shr_fexp prec emax (Zpos p) ex lx = (mrs', ex + k) /\
            shr_m mrs' = f /\
            (lx = loc_Exact -> d = prec ->
             loc_of_shr_record mrs' = loc_Exact)) as (mrs' & -> & Hm' & Hex).
  { unfold shr_fexp. cbn [Zdigits2]. fold d. unfold fexp, emin.
    rewrite Z.max_l by lia.
    replace (d + ex - prec - ex) with k by (subst k; lia).
    destruct (loc_of_record_of_loc (Zpos p) lx) as [Hl Hm].
    destruct k as [|pk|pk] eqn:Ek; try lia.
    - exists (shr_record_of_loc (Zpos p) lx). cbn [shr].
      rewrite Z.add_0_r. split; [reflexivity|]. split.
      + rewrite Hm. subst f. now rewrite Z.div_1_r.
      + intros -> _. exact Hl.
    - exists (SpecFloat.iter_pos shr_1 pk (shr_record_of_loc (Zpos p) lx)). cbn [shr].
      split; [reflexivity|]. split.
      + destruct (iter_shr_1_m pk (shr_record_of_loc (Zpos p) lx)) as [E _];
          [rewrite Hm; lia|].
        rewrite E, Hm. reflexivity.
      + intros _ Hdp. lia. }
  rewrite Hm'.
  set (m1 := round_nearest_even f (loc_of_shr_record mrs')).
  assert (m1 = f \/ m1 = f + 1) as Hm1 by apply round_nearest_even_range.
  destruct (round_finish prec emax s m1 (ex + k)) as (m & j & -> & Hj & Hmr & Hmj & Hj0);
    try lia.
  exists m, j. replace (ex + (d - prec) + j) with (ex + k + j) by (subst k; lia).
  split; [reflexivity|]. split; [exact Hj|]. split; [exact Hmr|]. split.
  - replace (d - prec + j) with (k + j) by (subst k; lia).
    rewrite Z.pow_add_r by lia.
    replace (Zpos m * (2 ^ k * 2 ^ j)) with (m1 * 2 ^ k) by (rewrite <- Hmj; ring).
    destruct Hm1 as [-> | ->]; lia.
  - intros Hl Hdp. specialize (Hex Hl Hdp).
    subst m1. rewrite Hex in *. cbn [round_nearest_even] in *.
    assert (j = 0) as -> by (apply Hj0; lia).
    rewrite Z.mul_1_r in Hmj.
    assert (k = 0) as Hk0 by (subst k; lia).
    subst f. rewrite Hk0, Z.div_1_r in Hmj.
    split; [now inversion Hmj|reflexivity].
Qed.

(** *** The three steps of [seconds_of_millis] *)

Lemma iter_xO_pow (p dd : positive) :
  Zpos (Pos.iter xO p dd) = Zpos p * 2 ^ Zpos dd.
Proof.
  induction dd as [|dd IH] using Pos.peano_ind.
  - cbn [Pos.iter]. change (2 ^ 1) with 2. lia.
  - rewrite Pos.iter_succ, Pos2Z.inj_succ, Z.pow_succ_r by lia.
    change (Zpos (Pos.iter xO p dd)~0) with (2 * Zpos (Pos.iter xO p dd)).
    rewrite IH. ring.
Qed.

Lemma digits_below_2_32 (p : positive) :
  Zpos p < 2 ^ 32 -> 1 <= Zpos (digits2_pos p) <= 32.
Proof.
  intros Hp. destruct (digits2_pos_bounds p) as [Blo _].
  split; [lia|].
  assert (Zpos (digits2_pos p) - 1 < 32); [|lia].
  apply (Z.pow_lt_mono_r_iff 2); lia.
Qed.

(** [unsigned long -> double] is exact: the value, aligned to 53
    digits. *)
Lemma double_of_ulong_exact (p : positive) :
  Zpos p < 2 ^ 32 ->
  let d := Zpos (digits2_pos p) in
  exists mz,
    double_of_ulong (Zpos p) = S754_finite false mz (d - 53) /\
    Zpos mz = Zpos p * 2 ^ (53 - d) /\
    2 ^ 52 <= Zpos mz < 2 ^ 53.
Proof.
  intros Hp d.
  pose proof (digits_below_2_32 p Hp) as Hd. fold d in Hd.
  pose proof (digits2_pos_bounds p) as [Blo Bhi]. fold d in Blo, Bhi.
  unfold double_of_ulong, binary_normalize, binary_round, shl_align.
  unfold fexp, emin, double_prec, double_emax. fold d.
  rewrite Z.max_l by lia.
  destruct (d + 0 - 53 - 0) as [|dd|dd] eqn:Edd; try lia.
  assert (Zpos dd = 53 - d) as Hdd by lia.
  pose proof (iter_xO_pow p dd) as Hmz. rewrite Hdd in Hmz.
  assert (2 ^ 52 <= Zpos (Pos.iter xO p dd) < 2 ^ 53) as Hr.
  { rewrite Hmz.
    assert (0 < 2 ^ (53 - d)) by (apply Z.pow_pos_nonneg; lia).
    replace (2 ^ 52) with (2 ^ (d - 1) * 2 ^ (53 - d))
      by (rewrite <- Z.pow_add_r by lia; f_equal; lia).
    replace (2 ^ 53) with (2 ^ d * 2 ^ (53 - d))
      by (rewrite <- Z.pow_add_r by lia; f_equal; lia).
    split; [apply Z.mul_le_mono_nonneg_r; lia|apply Z.mul_lt_mono_pos_r; lia]. }
  pose proof (digits2_pos_unique (Pos.iter xO p dd) 53 Hr) as Hdig.
  pose proof (binary_round_aux_faithful 53 1024 false (Pos.iter xO p dd)
                (d + 0 - 53) loc_Exact) as HF.
  cbv zeta in HF. rewrite Hdig in HF.
  destruct HF as (m & j & -> & _ & _ & _ & Hexact); try lia.
  destruct (Hexact eq_refl eq_refl) as [-> ->].
  exists (Pos.iter xO p dd).
  split; [f_equal; lia|]. split; [exact Hmz|exact Hr].
Qed.

Lemma double_1000_value :
  double_1000 = S754_finite false 8796093022208000 (-43).
Proof. reflexivity. Qed.

(** The [double] quotient by 1000.0 of an aligned mantissa. *)
Lemma double_div_1000 (mz : positive) (e1 : Z) :
  2 ^ 52 <= Zpos mz < 2 ^ 53 -> -52 <= e1 <= -21 ->
  exists md q a,
    double_div (S754_finite false mz e1) double_1000 =
    S754_finite false md (e1 - 10 + a) /\
    0 <= a <= 2 /\
    2 ^ 52 <= Zpos md < 2 ^ 53 /\
    1000 * q <= 1024 * Zpos mz < 1000 * q + 1000 /\
    Z.abs (Zpos md * 2 ^ a - q) <= 2.
Proof.
  intros Hmz He1.
  rewrite double_1000_value. unfold double_div, SFdiv, SFdiv_core_binary.
  cbn [Zdigits2 xorb].
  rewrite (digits2_pos_unique mz 53 Hmz).
  change (Zpos (digits2_pos 8796093022208000)) with 53.
  unfold fexp, emin, double_prec, double_emax.
  rewrite Z.max_l by lia.
  rewrite Z.min_l by lia.
  replace (e1 - -43 - (53 + e1 - (53 + -43) - 53)) with 53 by lia.
  rewrite Z.shiftl_mul_pow2 by lia.
  pose proof (Z_div_mod (Zpos mz * 2 ^ 53) 8796093022208000 eq_refl) as Hdm.
  destruct (Z.div_eucl (Zpos mz * 2 ^ 53) 8796093022208000) as [q r].
  destruct Hdm as [Hq Hr].
  change (2 ^ 53) with 9007199254740992 in Hq.
  change (2 ^ 52) with 4503599627370496 in Hmz.
  change (2 ^ 53) with 9007199254740992 in Hmz.
  assert (4503599627370496 <= q < 18014398509481984) as Hqr by lia.
  destruct q as [|pq|pq]; try lia.
  assert (Zpos (digits2_pos pq) = 53 \/ Zpos (digits2_pos pq) = 54) as Hdq.
  { destruct (Z.lt_ge_cases (Zpos pq) 9007199254740992).
    - left. apply digits2_pos_unique.
      change (2 ^ (53 - 1)) with 4503599627370496.
      change (2 ^ 53) with 9007199254740992. lia.
    - right. apply digits2_pos_unique.
      change (2 ^ (54 - 1)) with 9007199254740992.
      change (2 ^ 54) with 18014398509481984. lia. }
  pose proof (binary_round_aux_faithful 53 1024 false pq
                (53 + e1 - (53 + -43) - 53)
                (new_location 8796093022208000 r)) as HF.
  cbv zeta in HF.
  destruct HF as (md & j & -> & Hj & Hmd & Herr & _); try lia.
  exists md, (Zpos pq), (Zpos (digits2_pos pq) - 53 + j).
  split; [f_equal; lia|]. split; [lia|]. split; [exact Hmd|].
  split; [lia|].
  assert (2 ^ (Zpos (digits2_pos pq) - 53) <= 2) as Hk.
  { destruct Hdq as [-> | ->]; vm_compute; congruence. }
  lia.
Qed.

(** [double -> float] of a 53-digit mantissa: 29 or 30 digits go. *)
Lemma float_of_double_faithful (md : positive) (ed : Z) :
  2 ^ 52 <= Zpos md < 2 ^ 53 -> -62 <= ed <= -29 ->
  exists mf b,
    float_of_double (S754_finite false md ed) = S754_finite false mf (ed + b) /\
    (b = 29 \/ b = 30) /\
    2 ^ 23 <= Zpos mf < 2 ^ 24 /\
    Z.abs (Zpos mf * 2 ^ b - Zpos md) <= 2 ^ 29.
Proof.
  intros Hmd Hed.
  pose proof (digits2_pos_unique md 53 Hmd) as Hdig.
  unfold float_of_double, binary_normalize, binary_round, shl_align.
  rewrite Hdig. unfold fexp, emin, float_prec, float_emax.
  rewrite Z.max_l by lia.
  replace (53 + ed - 24 - ed) with 29 by lia. cbv beta iota.
  pose proof (binary_round_aux_faithful 24 128 false md ed loc_Exact) as HF.
  cbv zeta in HF. rewrite Hdig in HF.
  destruct HF as (mf & j & -> & Hj & Hmf & Herr & _); try lia.
  exists mf, (53 - 24 + j).
  split; [f_equal; lia|]. split; [lia|]. split; [exact Hmf|].
  exact Herr.
Qed.

(** The [float] stored differs from [n / 1000] by at most [2^-22] of
    it; in integers, with both sides scaled by [2^64]. *)
Lemma seconds_of_millis_error (n : Z) :
  0 < n < 2 ^ 32 ->
  exists m e,
    seconds_of_millis n = S754_finite false m e /\
    -64 <= e <= 1 /\
    2 ^ 23 <= Zpos m < 2 ^ 24 /\
    2 ^ 22 * Z.abs (1000 * (Zpos m * 2 ^ (e + 64)) - n * 2 ^ 64)
    <= n * 2 ^ 64.
Proof.
  intros [Hn0 Hn].
  destruct n as [|p|p]; try lia.
  pose proof (digits_below_2_32 p Hn) as Hd.
  destruct (double_of_ulong_exact p Hn) as (mz & Hdbl & Hmz & Hmzr).
  set (d := Zpos (digits2_pos p)) in *.
  destruct (double_div_1000 mz (d - 53) Hmzr ltac:(lia))
    as (md & q & a & Hdiv & Ha & Hmdr & Hq & Hqa).
  destruct (float_of_double_faithful md (d - 53 - 10 + a) Hmdr ltac:(lia))
    as (mf & b & Hflt & Hb & Hmfr & Hfb).
  unfold seconds_of_millis. rewrite Hdbl, Hdiv, Hflt.
  exists mf, (d - 53 - 10 + a + b).
  split; [reflexivity|]. split; [lia|]. split; [exact Hmfr|].
  set (N := 1024 * Zpos mz) in *.
  set (P := 2 ^ (d + 1)).
  assert (0 < P) as HP by (apply Z.pow_pos_nonneg; lia).
  assert (Zpos p * 2 ^ 64 = N * P) as HN.
  { subst N P. rewrite Hmz. change 1024 with (2 ^ 10).
    replace 64 with (10 + (53 - d) + (d + 1)) by lia.
    rewrite !Z.pow_add_r by lia. ring. }
  assert (2 ^ (d - 53 - 10 + a + b + 64) = P * (2 ^ a * 2 ^ b)) as HE.
  { subst P. rewrite <- !Z.pow_add_r by lia. f_equal. lia. }
  rewrite HN, HE.
  replace (1000 * (Zpos mf * (P * (2 ^ a * 2 ^ b))) - N * P)
    with (P * (1000 * (Zpos mf * (2 ^ a * 2 ^ b)) - N)) by ring.
  rewrite Z.abs_mul, (Z.abs_eq P) by lia.
  replace (2 ^ 22 * (P * Z.abs (1000 * (Zpos mf * (2 ^ a * 2 ^ b)) - N)))
    with (P * (2 ^ 22 * Z.abs (1000 * (Zpos mf * (2 ^ a * 2 ^ b)) - N)))
    by ring.
  rewrite (Z.mul_comm N P).
  apply Z.mul_le_mono_nonneg_l; [lia|].
  clear Hmfr.
  change (2 ^ 52) with 4503599627370496 in *.
  change (2 ^ 53) with 9007199254740992 in *.
  change (2 ^ 29) with 536870912 in *.
  change (2 ^ 22) with 4194304.
  assert (a = 0 \/ a = 1 \/ a = 2) as Ha' by lia.
  destruct Ha' as [-> | [-> | ->]]; destruct Hb as [-> | ->];
    repeat match goal with
           | H : context [2 ^ ?c] |- _ =>
               let v := eval vm_compute in (2 ^ c) in
               change (2 ^ c) with v in H
           | |- context [2 ^ ?c] =>
               let v := eval vm_compute in (2 ^ c) in
               change (2 ^ c) with v
           end;
    subst N; lia.
Qed.

(** *** The value as a rational number *)

Lemma Qpower_2_scaled (e : Z) :
  -64 <= e ->
  (Qpower 2 e == inject_Z (2 ^ (e + 64)) * (1 # 18446744073709551616))%Q.
Proof.
  intros He.
  replace e with ((e + 64) + (-64)) at 1 by lia.
  rewrite Qpower_plus by discriminate.
  rewrite Zpower_Qpower by lia.
  reflexivity.
Qed.

Lemma finite_float_is_binary32 (m : positive) (e : Z) :
  2 ^ 23 <= Zpos m < 2 ^ 24 -> -149 <= e <= 104 ->
  is_binary32 (S754_finite false m e) = true.
Proof.
  intros Hm He.
  unfold is_binary32, valid_binary, bounded, canonical_mantissa, fexp, emin,
    float_prec, float_emax.
  rewrite (digits2_pos_unique m 24 Hm).
  apply andb_true_iff. split; [apply Z.eqb_eq|apply Z.leb_le]; lia.
Qed.

Lemma seconds_of_millis_rounds (n : Z) :
  0 <= n < 2 ^ 32 ->
  is_binary32 (seconds_of_millis n) = true /\
  exists v, float_value (seconds_of_millis n) = Some v /\
            (Qabs (v - inject_Z n / 1000) <= inject_Z n / 1000 * (1 # 4194304))%Q.
Proof.
  intros Hn.
  destruct (Z.eq_dec n 0) as [-> | Hnz].
  { split; [reflexivity|]. exists 0%Q. split; [reflexivity|].
    vm_compute. discriminate. }
  destruct (seconds_of_millis_error n ltac:(lia))
    as (m & e & -> & He & Hm & Herr).
  split; [apply finite_float_is_binary32; [exact Hm|lia]|].
  eexists. split; [reflexivity|].
  rewrite (Qpower_2_scaled e) by lia.
  set (K := Zpos m * 2 ^ (e + 64)) in *.
  assert (inject_Z (Z.pos m) * (inject_Z (2 ^ (e + 64)) *
            (1 # 18446744073709551616))
          == inject_Z K * (1 # 18446744073709551616))%Q as ->.
  { subst K. rewrite inject_Z_mult. ring. }
  change (2 ^ 64) with 18446744073709551616 in Herr.
  change (2 ^ 22) with 4194304 in Herr.
  assert (4194304 * (1000 * K)
          <= n * 18446744073709551616
             + 4194304 * (n * 18446744073709551616)) as H1 by lia.
  assert (4194304 * (n * 18446744073709551616)
          <= n * 18446744073709551616 + 4194304 * (1000 * K)) as H2 by lia.
  clear Herr.
  rewrite Zle_Qle in H1, H2.
  repeat first [ rewrite inject_Z_plus in H1 | rewrite inject_Z_mult in H1 ].
  repeat first [ rewrite inject_Z_plus in H2 | rewrite inject_Z_mult in H2 ].
  apply Qabs_Qle_condition.
  set (qk := inject_Z K) in *. set (qn := inject_Z n) in *.
  clearbody qk qn.
  change (inject_Z 4194304) with (4194304 # 1)%Q in *.
  change (inject_Z 1000) with (1000 # 1)%Q in *.
  change (inject_Z 18446744073709551616) with (18446744073709551616 # 1)%Q in *.
  unfold Qdiv. change (/ 1000)%Q with (1 # 1000)%Q.
  split; lra.
Qed.

(** C6.  When a session with a non-empty press sequence completes, the
    [TeethInput] returned has [isValid = true]; its [teeth] are the
    press sequence sorted and deduplicated, i.e. the strictly ascending
    list with the same members as the press sequence (there is only one
    such list); its [gesture] is the classification of the sequence and
    of the session duration in milliseconds; and its [duration] is that
    number of milliseconds divided by 1000.0 in floating point: a
    binary32 number whose value is the duration in seconds, ms / 1000,
    up to a relative error of 2^-22. *)
Theorem completed_gesture_fields (now : Z) (m : TeethInputManager) :
  currentGesture m <> [] ->
  gesture_complete now m = true ->
  let r := fst (analyzeGesture now m) in
  let ms := ulong_sub now (gestureStartTime m) in
  isValid r = true /\
  teeth r = sorted_unique (currentGesture m) /\
  StronglySorted Z.lt (teeth r) /\
  (forall c, In c (teeth r) <-> In c (currentGesture m)) /\
  (forall l, StronglySorted Z.lt l ->
             (forall c, In c l <-> In c (currentGesture m)) ->
             teeth r = l) /\
  gesture r = getGestureType (currentGesture m) ms /\
  duration r = seconds_of_millis ms /\
  is_binary32 (duration r) = true /\
  exists v, float_value (duration r) = Some v /\
            (Qabs (v - inject_Z ms / 1000)
             <= inject_Z ms / 1000 * (1 # 4194304))%Q.
Proof.
  intros Hne Hc r ms. subst r.
  rewrite (analyzeGesture_complete now m Hc). simpl. fold ms.
  destruct (currentGesture m) as [|c0 cs] eqn:Hg; [congruence|].
  cbn [classify fill_result fst isValid teeth gesture duration].
  split; [reflexivity|]. split; [reflexivity|].
  split; [apply sorted_unique_sorted|].
  split; [intros c; apply sorted_unique_In|].
  split; [|split; [reflexivity|split; [reflexivity|]]].
  - intros l Hl Hin. apply strictly_sorted_unique_repr.
    + apply sorted_unique_sorted.
    + exact Hl.
    + intros c. now rewrite sorted_unique_In, Hin.
  - apply seconds_of_millis_rounds.
    subst ms. unfold ulong_sub, wrap_ulong, ULONG_MOD.
    change (2 ^ 32) with 4294967296. apply Z.mod_pos_bound. lia.
Qed.

Lemma completed_gesture_fields_witness :
  currentGesture clicked_manager <> [] /\
  gesture_complete 1561 clicked_manager = true /\
  fst (analyzeGesture 1561 clicked_manager) =
  {| isValid := true; gesture := "single_click"; teeth := [2];
     duration := seconds_of_millis 501 |}.
Proof.
  assert (currentGesture clicked_manager <> []) as H1
    by (vm_compute; discriminate).
  assert (gesture_complete 1561 clicked_manager = true) as H2
    by (vm_compute; reflexivity).
  split; [exact H1|]. split; [exact H2|].
  destruct (completed_gesture_fields 1561 clicked_manager H1 H2)
    as (Hv & Ht & _ & _ & _ & Hg & Hd & _).
  destruct (fst (analyzeGesture 1561 clicked_manager)) as [v g t d].
  cbn [isValid teeth gesture duration] in *.
  rewrite Hv, Ht, Hg, Hd. vm_compute. reflexivity.
Defined.

(** C7.  On an empty press sequence [getGestureType] answers
    "unknown"; [analyzeGesture] and [checkInput] then return the
    default-constructed [TeethInput], whose [isValid] is false and whose
    gesture is none of the four named ones, so nothing is handed to the
    caller as a gesture; the call returns normally, with the press
    sequence still empty. *)
Theorem empty_session_not_classified :
  (forall d, getGestureType [] d = "unknown"%string) /\
  (forall d, classify [] d = TeethInput_default) /\
  isValid TeethInput_default = false /\
  ~ In (gesture TeethInput_default) named_gestures /\
  (forall now m,
      currentGesture m = [] ->
      fst (analyzeGesture now m) = TeethInput_default /\
      currentGesture (snd (analyzeGesture now m)) = []) /\
  (forall tk m,
      currentGesture (fst (updateButtonStates tk m)) = [] ->
      fst (checkInput tk m) = TeethInput_default /\
      currentGesture (snd (checkInput tk m)) = []).
Proof.
  split; [reflexivity|]. split; [reflexivity|]. split; [reflexivity|].
  split; [simpl; intuition discriminate|].
  assert (forall now m, currentGesture m = [] ->
            fst (analyzeGesture now m) = TeethInput_default /\
            currentGesture (snd (analyzeGesture now m)) = []) as Ha.
  { intros now m He. unfold analyzeGesture.
    destruct (gesture_complete now m); simpl; rewrite ?He; split; reflexivity. }
  split; [exact Ha|].
  intros tk m He. unfold checkInput. now apply Ha.
Qed.

Lemma empty_session_not_classified_witness :
  currentGesture (fst (updateButtonStates (tick_at 5 []) started_manager)) = []
  /\ fst (checkInput (tick_at 5 []) started_manager) = TeethInput_default.
Proof.
  assert (currentGesture
            (fst (updateButtonStates (tick_at 5 []) started_manager)) = [])
    as H by reflexivity.
  split; [exact H|].
  destruct empty_session_not_classified as (_ & _ & _ & _ & _ & Hc).
  exact (proj1 (Hc (tick_at 5 []) started_manager H)).
Defined.

(** C8.  The gesture returned for a completed session is a function of
    the press sequence and of the session duration alone: two completing
    calls, on any two managers at any two times, that agree on the press
    sequence and on the duration return equal [TeethInput] values
    (gesture, teeth, duration and isValid), namely [classify] of the two
    arguments; buttons, time stamps and the clock do not enter. *)
Theorem classification_deterministic
    (now1 now2 : Z) (m1 m2 : TeethInputManager) :
  gesture_complete now1 m1 = true ->
  gesture_complete now2 m2 = true ->
  currentGesture m1 = currentGesture m2 ->
  ulong_sub now1 (gestureStartTime m1) = ulong_sub now2 (gestureStartTime m2) ->
  fst (analyzeGesture now1 m1) = fst (analyzeGesture now2 m2) /\
  fst (analyzeGesture now1 m1) =
  classify (currentGesture m1) (ulong_sub now1 (gestureStartTime m1)) /\
  gesture (fst (analyzeGesture now1 m1)) =
  gesture (fst (analyzeGesture now2 m2)) /\
  teeth (fst (analyzeGesture now1 m1)) = teeth (fst (analyzeGesture now2 m2)) /\
  duration (fst (analyzeGesture now1 m1)) =
  duration (fst (analyzeGesture now2 m2)) /\
  isValid (fst (analyzeGesture now1 m1)) =
  isValid (fst (analyzeGesture now2 m2)).
Proof.
  intros Hc1 Hc2 Hseq Hdur.
  rewrite (analyzeGesture_complete now1 m1 Hc1),
          (analyzeGesture_complete now2 m2 Hc2).
  cbn [fst]. rewrite Hseq, Hdur. repeat split.
Qed.

Lemma classification_deterministic_witness :
  fst (analyzeGesture 1561 clicked_manager) =
  fst (analyzeGesture 295 wrapping_manager).
Proof.
  refine (proj1 (classification_deterministic 1561 295
                   clicked_manager wrapping_manager _ _ _ _));
    vm_compute; reflexivity.
Defined.

(** ** Initialisation *)

(** The claim that [init] refuses an empty or a duplicated pin list does
    not hold: on the empty list it yields a manager without buttons, and
    on [2, 2] one with two buttons on pin 2. *)
Lemma init_starts_on_empty_and_duplicates :
  ~ (forall m pins,
        pins = [] \/ ~ NoDup pins -> init_outcome m pins = InitRefused) /\
  init_outcome raw_manager [] =
  InitStarted {| buttons := []; currentGesture := [];
                 gestureStartTime := 0; lastButtonTime := 0;
                 gestureActive := false |} /\
  ~ NoDup [2; 2] /\
  init_outcome raw_manager [2; 2] =
  InitStarted {| buttons := [init_button 2; init_button 2];
                 currentGesture := []; gestureStartTime := 0;
                 lastButtonTime := 0; gestureActive := false |}.
Proof.
  split; [|split; [reflexivity|split; [|reflexivity]]].
  - intros H. specialize (H raw_manager [] (or_introl eq_refl)).
    discriminate.
  - intros H. inversion H as [|? ? Hnotin _]; subst.
    apply Hnotin. now left.
Qed.

(** C5 (amended).  [init] never fails: for every pin list, empty or with
    duplicates included, it yields a manager with one released button
    per list entry, in the order of the list, and an idle, empty
    session, whatever the object held before. *)
Theorem init_always_starts (m : TeethInputManager) (pins : list Z) :
  exists m',
    init_outcome m pins = InitStarted m' /\
    buttons m' = map init_button pins /\
    map pin (buttons m') = pins /\
    List.length (buttons m') = List.length pins /\
    Forall (fun b => isPressed b = false /\ currentState b = false /\
                     lastState b = false) (buttons m') /\
    currentGesture m' = [] /\ gestureActive m' = false /\
    gestureStartTime m' = 0 /\ lastButtonTime m' = 0.
Proof.
  exists (init m pins). unfold init_outcome, init, resetGesture; simpl.
  repeat split.
  - rewrite map_map. simpl. apply map_id.
  - apply length_map.
  - apply Forall_forall. intros b Hb.
    apply in_map_iff in Hb as (p & <- & _). repeat split.
Qed.

(** * Further properties of the recogniser *)

(** ** What one tick does to the buttons *)

(** The session fields after one loop body: a press edge records the
    press, anything else leaves them alone. *)
Lemma update_button_session (now : Z) (reading : bool)
    (btn : ButtonState) (m : TeethInputManager) :
  snd (fst (update_button now reading btn m)) =
  if press_edge now reading btn then record_press now (pin btn) m else m.
Proof.
  rewrite update_button_cases. unfold press_edge.
  destruct (stable_reading now reading btn); simpl; [|reflexivity].
  destruct reading, (currentState btn); reflexivity.
Qed.

(** The button after one loop body: same pin; pressed flag and debounced
    level move together; on a press edge the button is pressed since
    [now]. *)
Lemma update_button_button (now : Z) (reading : bool)
    (btn : ButtonState) (m : TeethInputManager) :
  let btn' := fst (fst (update_button now reading btn m)) in
  pin btn' = pin btn /\
  (isPressed btn = currentState btn -> isPressed btn' = currentState btn') /\
  (press_edge now reading btn = true ->
   isPressed btn' = true /\ currentState btn' = true /\
   pressStartTime btn' = now).
Proof.
  cbv zeta. rewrite update_button_cases. unfold press_edge.
  destruct (stable_reading now reading btn); simpl.
  - destruct reading, (currentState btn); simpl; repeat split;
      auto; discriminate.
  - repeat split; auto; discriminate.
Qed.

(** The vector after the loop, button by button. *)
Lemma update_loop_buttons (now : Z) (rd : nat -> Z -> Z)
    (btns : list ButtonState) : forall k m,
  Forall2 (fun b b' =>
             exists r ms, b' = fst (fst (update_button now r b ms)))
          btns (fst (fst (update_loop now rd k btns m))).
Proof.
  induction btns as [|btn rest IH]; intros k m; simpl; [constructor|].
  destruct (update_button now (reading_of (rd k (pin btn))) btn m)
    as [[b' m1] l1] eqn:Hb.
  specialize (IH (S k) m1). destruct_loop. simpl in *.
  constructor; [|exact IH].
  exists (reading_of (rd k (pin btn))), m. now rewrite Hb.
Qed.

Lemma update_loop_pins (now : Z) (rd : nat -> Z -> Z)
    (btns : list ButtonState) (k : nat) (m : TeethInputManager) :
  map pin (fst (fst (update_loop now rd k btns m))) = map pin btns.
Proof.
  pose proof (update_loop_buttons now rd btns k m) as H.
  induction H as [|b b' l l' (r & ms & ->) _ IH]; simpl; [reflexivity|].
  f_equal; [|exact IH].
  apply (update_button_button now r b ms).
Qed.

Lemma update_loop_consistent (now : Z) (rd : nat -> Z -> Z)
    (btns : list ButtonState) (k : nat) (m : TeethInputManager) :
  Forall (fun b => isPressed b = currentState b) btns ->
  Forall (fun b => isPressed b = currentState b)
         (fst (fst (update_loop now rd k btns m))).
Proof.
  pose proof (update_loop_buttons now rd btns k m) as H.
  induction H as [|b b' l l' (r & ms & ->) _ IH]; intros Hall;
    [constructor|].
  inversion Hall; subst. constructor; [|now apply IH].
  now apply (update_button_button now r b ms).
Qed.

(** The session fields after the loop, in terms of the press edges of
    the tick. *)
Lemma update_loop_session (now : Z) (rd : nat -> Z -> Z)
    (btns : list ButtonState) : forall k m,
  let m' := snd (fst (update_loop now rd k btns m)) in
  let pp := pressed_pins now rd k btns in
  currentGesture m' = currentGesture m ++ pp /\
  (pp = [] ->
   gestureActive m' = gestureActive m /\
   gestureStartTime m' = gestureStartTime m /\
   lastButtonTime m' = lastButtonTime m) /\
  (pp <> [] ->
   gestureActive m' = true /\
   gestureStartTime m' =
     (if gestureActive m then gestureStartTime m else now) /\
   lastButtonTime m' = now).
Proof.
  induction btns as [|btn rest IH]; intros k m; cbv zeta.
  - simpl. rewrite app_nil_r. repeat split; congruence.
  - simpl.
    pose proof (update_button_session now (reading_of (rd k (pin btn))) btn m)
      as Hs.
    destruct (update_button now (reading_of (rd k (pin btn))) btn m)
      as [[b' m1] l1].
    specialize (IH (S k) m1). cbv zeta in IH.
    destruct_loop. simpl in *. subst m1.
    destruct IH as (Hg & Hnil & Hcons).
    destruct (press_edge now (reading_of (rd k (pin btn))) btn).
    + simpl in *. rewrite Hg, <- app_assoc. split; [reflexivity|].
      split; [discriminate|]. intros _.
      destruct (pressed_pins now rd (S k) rest) as [|p ps].
      * destruct (Hnil eq_refl) as (-> & -> & ->).
        now destruct (gestureActive m).
      * destruct Hcons as (-> & -> & ->); [discriminate|].
        now destruct (gestureActive m).
    + simpl in *. repeat split; tauto.
Qed.

(** A tick with a press edge leaves a pressed button behind. *)
Lemma update_loop_anyPressed (now : Z) (rd : nat -> Z -> Z)
    (btns : list ButtonState) : forall k m,
  pressed_pins now rd k btns <> [] ->
  anyPressed (fst (fst (update_loop now rd k btns m))) = true.
Proof.
  induction btns as [|btn rest IH]; intros k m Hpp; simpl in *;
    [congruence|].
  pose proof (update_button_button now (reading_of (rd k (pin btn))) btn m)
    as (_ & _ & Hedge).
  destruct (update_button now (reading_of (rd k (pin btn))) btn m)
    as [[b' m1] l1].
  specialize (IH (S k) m1). destruct_loop. simpl in *.
  destruct (press_edge now (reading_of (rd k (pin btn))) btn).
  - destruct (Hedge eq_refl) as (-> & _). reflexivity.
  - rewrite (IH Hpp). apply orb_true_r.
Qed.

Lemma pressed_pins_configured (now : Z) (rd : nat -> Z -> Z)
    (btns : list ButtonState) : forall k,
  incl (pressed_pins now rd k btns) (map pin btns).
Proof.
  induction btns as [|btn rest IH]; intros k p Hp; simpl in *; [exact Hp|].
  apply in_app_or in Hp as [Hp|Hp].
  - destruct (press_edge now (reading_of (rd k (pin btn))) btn);
      [|destruct Hp]. destruct Hp as [<-|[]]. now left.
  - right. exact (IH (S k) p Hp).
Qed.

(** [updateButtonStates] in terms of its loop. *)
Lemma updateButtonStates_fields (tk : Tick) (m : TeethInputManager) :
  let r := fst (update_loop (millis_update tk) (digitalRead tk) 0
                  (buttons m) m) in
  let m' := fst (updateButtonStates tk m) in
  buttons m' = fst r /\
  currentGesture m' = currentGesture (snd r) /\
  gestureStartTime m' = gestureStartTime (snd r) /\
  lastButtonTime m' = lastButtonTime (snd r) /\
  gestureActive m' = gestureActive (snd r).
Proof.
  cbv zeta. unfold updateButtonStates. destruct_loop. simpl. tauto.
Qed.

Lemma analyzeGesture_buttons (now : Z) (m : TeethInputManager) :
  buttons (snd (analyzeGesture now m)) = buttons m.
Proof. unfold analyzeGesture. now destruct (gesture_complete now m). Qed.

Lemma checkInput_pins (tk : Tick) (m : TeethInputManager) :
  map pin (buttons (snd (checkInput tk m))) = map pin (buttons m).
Proof.
  unfold checkInput. rewrite analyzeGesture_buttons.
  destruct (updateButtonStates_fields tk m) as (-> & _).
  apply update_loop_pins.
Qed.

Lemma checkInput_consistent (tk : Tick) (m : TeethInputManager) :
  buttons_consistent m -> buttons_consistent (snd (checkInput tk m)).
Proof.
  unfold buttons_consistent, checkInput. intros H.
  rewrite analyzeGesture_buttons.
  destruct (updateButtonStates_fields tk m) as (-> & _).
  now apply update_loop_consistent.
Qed.

Lemma init_consistent (m0 : TeethInputManager) (pins : list Z) :
  buttons_consistent (init m0 pins).
Proof.
  unfold buttons_consistent, init; simpl.
  apply Forall_forall. intros b Hb.
  now apply in_map_iff in Hb as (p & <- & _).
Qed.

(** X1.  [isPressed] and the debounced level [currentState] of every
    button agree after [init] and after every tick: the two fields are
    only ever written together. *)
Theorem pressed_flag_tracks_level :
  (forall m0 pins, buttons_consistent (init m0 pins)) /\
  (forall tk m,
      buttons_consistent m -> buttons_consistent (snd (checkInput tk m))) /\
  (forall m, reachable m -> buttons_consistent m).
Proof.
  split; [apply init_consistent|]. split; [apply checkInput_consistent|].
  induction 1 as [m0 pins|tk m _ IH].
  - apply init_consistent.
  - now apply checkInput_consistent.
Qed.

Lemma pressed_flag_tracks_level_witness :
  buttons_consistent clicked_manager /\
  buttons_consistent (snd (checkInput (tick_at 1200 [4]) clicked_manager)).
Proof.
  assert (buttons_consistent clicked_manager) as H
    by (vm_compute; repeat constructor).
  split; [exact H|].
  exact (proj1 (proj2 pressed_flag_tracks_level)
           (tick_at 1200 [4]) clicked_manager H).
Defined.

Lemma run_ticks_pins (tks : list Tick) : forall m,
  map pin (buttons (snd (run_ticks tks m))) = map pin (buttons m).
Proof.
  induction tks as [|tk rest IH]; intros m; simpl; [reflexivity|].
  pose proof (checkInput_pins tk m) as Hp.
  destruct (checkInput tk m) as [r m1]. specialize (IH m1).
  destruct (run_ticks rest m1) as [rs m2]. simpl in *. congruence.
Qed.

(** X2.  The pins are fixed by [init]: after any run of ticks the
    vector still holds one button per configured pin, in the configured
    order; [checkInput] never adds, drops, reorders or re-pins a
    button. *)
Theorem pins_fixed_by_ticks (tks : list Tick) (m0 : TeethInputManager)
    (pins : list Z) :
  map pin (buttons (snd (run_ticks tks (init m0 pins)))) = pins /\
  List.length (buttons (snd (run_ticks tks (init m0 pins)))) =
  List.length pins.
Proof.
  assert (map pin (buttons (snd (run_ticks tks (init m0 pins)))) = pins) as H.
  { rewrite run_ticks_pins. unfold init; simpl.
    rewrite map_map. apply map_id. }
  split; [exact H|].
  rewrite <- H at 2. now rewrite length_map.
Qed.

Lemma checkInput_configured (tk : Tick) (m : TeethInputManager) :
  presses_configured m ->
  presses_configured (snd (checkInput tk m)) /\
  incl (teeth (fst (checkInput tk m))) (map pin (buttons m)).
Proof.
  unfold presses_configured. intros Hinc.
  assert (incl (currentGesture (fst (updateButtonStates tk m)))
               (map pin (buttons m))) as Hup.
  { rewrite updateButtonStates_presses. apply incl_app; [exact Hinc|].
    apply pressed_pins_configured. }
  split.
  - rewrite checkInput_pins. unfold checkInput, analyzeGesture.
    destruct (gesture_complete _ _); simpl; [intros ? []|exact Hup].
  - unfold checkInput, analyzeGesture.
    destruct (gesture_complete _ _); simpl; [|intros ? []].
    unfold classify.
    destruct (currentGesture (fst (updateButtonStates tk m))) as [|c cs];
      cbn [teeth fill_result TeethInput_default]; [intros ? []|].
    intros t Ht. apply (proj1 (sorted_unique_In _ _)) in Ht. now apply Hup.
Qed.

Lemma run_ticks_configured (tks : list Tick) : forall m r,
  presses_configured m ->
  In r (fst (run_ticks tks m)) ->
  incl (teeth r) (map pin (buttons m)).
Proof.
  induction tks as [|tk rest IH]; intros m r Hinv Hr; simpl in *;
    [destruct Hr|].
  pose proof (checkInput_configured tk m Hinv) as [Hinv1 Hteeth].
  pose proof (checkInput_pins tk m) as Hp.
  destruct (checkInput tk m) as [r1 m1]. specialize (IH m1 r Hinv1).
  destruct (run_ticks rest m1) as [rs m2]. simpl in *.
  destruct Hr as [<-|Hr]; [exact Hteeth|].
  rewrite <- Hp. now apply IH.
Qed.

Lemma teeth_NoDup (tk : Tick) (m : TeethInputManager) :
  NoDup (teeth (fst (checkInput tk m))).
Proof.
  unfold checkInput, analyzeGesture.
  destruct (gesture_complete _ _); simpl; [|constructor].
  unfold classify.
  destruct (currentGesture (fst (updateButtonStates tk m)));
    simpl; [constructor|].
  apply strictly_sorted_NoDup, sorted_unique_sorted.
Qed.

Lemma run_ticks_teeth_NoDup (tks : list Tick) : forall m r,
  In r (fst (run_ticks tks m)) -> NoDup (teeth r).
Proof.
  induction tks as [|tk rest IH]; intros m r Hr; simpl in *; [destruct Hr|].
  pose proof (teeth_NoDup tk m) as Hn.
  destruct (checkInput tk m) as [r1 m1]. specialize (IH m1 r).
  destruct (run_ticks rest m1) as [rs m2]. simpl in *.
  destruct Hr as [<-|Hr]; [exact Hn|now apply IH].
Qed.

(** X3.  Whatever the board does, every tooth reported by any tick after
    [init] is one of the configured pins, no tooth is reported twice in
    one result, and so a result never lists more teeth than there are
    buttons. *)
Theorem reported_teeth_are_configured (tks : list Tick)
    (m0 : TeethInputManager) (pins : list Z) (r : TeethInput) :
  In r (fst (run_ticks tks (init m0 pins))) ->
  incl (teeth r) pins /\ NoDup (teeth r) /\
  (List.length (teeth r) <= List.length pins)%nat.
Proof.
  intros Hr.
  assert (incl (teeth r) pins) as Hinc.
  { replace pins with (map pin (buttons (init m0 pins))).
    - apply (run_ticks_configured tks); [intros ? []|exact Hr].
    - unfold init; simpl. rewrite map_map. apply map_id. }
  pose proof (run_ticks_teeth_NoDup tks _ r Hr) as Hnd.
  split; [exact Hinc|]. split; [exact Hnd|].
  now apply NoDup_incl_length.
Qed.

Lemma reported_teeth_are_configured_witness :
  In {| isValid := true; gesture := "single_click"; teeth := [2];
        duration := seconds_of_millis 501 |}
     (fst (run_ticks (click_ticks ++ [tick_at 1561 []])
             (init raw_manager default_pins))) /\
  incl [2] default_pins.
Proof.
  assert (In {| isValid := true; gesture := "single_click"; teeth := [2];
                duration := seconds_of_millis 501 |}
             (fst (run_ticks (click_ticks ++ [tick_at 1561 []])
                     (init raw_manager default_pins)))) as H
    by (vm_compute; do 4 right; left; reflexivity).
  split; [exact H|].
  exact (proj1 (reported_teeth_are_configured _ _ _ _ H)).
Defined.

(** ** Presses and completion *)

Lemma pressed_pins_nth (now : Z) (rd : nat -> Z -> Z)
    (btns : list ButtonState) : forall k i btn,
  nth_error btns i = Some btn ->
  press_edge now (reading_of (rd (k + i)%nat (pin btn))) btn = true ->
  In (pin btn) (pressed_pins now rd k btns).
Proof.
  induction btns as [|b rest IH]; intros k i btn Hnth Hedge.
  - destruct i; discriminate.
  - simpl. apply in_or_app. destruct i as [|i]; simpl in Hnth.
    + inversion Hnth; subst. rewrite Nat.add_0_r in Hedge.
      rewrite Hedge. left. now left.
    + right. apply (IH (S k) i btn Hnth).
      now rewrite Nat.add_succ_l, <- Nat.add_succ_r.
Qed.

(** X4.  A tick in which some button has a press edge (a pressed level,
    stable for more than [DEBOUNCE_TIME], on a button whose debounced
    level is released) leaves that button pressed since [now] and its
    pin in the press sequence, opens or extends the session with
    [lastButtonTime = now], and never completes the session: the result
    of the tick is the default one and nothing is reset. *)
Theorem press_tick_extends_session (tk : Tick) (m : TeethInputManager)
    (k : nat) (btn : ButtonState) :
  nth_error (buttons m) k = Some btn ->
  press_edge (millis_update tk)
             (reading_of (digitalRead tk k (pin btn))) btn = true ->
  let m' := fst (updateButtonStates tk m) in
  (exists btn',
      nth_error (buttons m') k = Some btn' /\
      pin btn' = pin btn /\ isPressed btn' = true /\
      currentState btn' = true /\ pressStartTime btn' = millis_update tk) /\
  In (pin btn) (currentGesture m') /\
  gestureActive m' = true /\
  lastButtonTime m' = millis_update tk /\
  checkInput tk m = (TeethInput_default, m').
Proof.
  intros Hnth Hedge m'.
  pose proof (pressed_pins_nth (millis_update tk) (digitalRead tk)
                (buttons m) 0 k btn Hnth Hedge) as Hin.
  assert (pressed_pins (millis_update tk) (digitalRead tk) 0 (buttons m) <> [])
    as Hpp by (intros He; rewrite He in Hin; destruct Hin).
  destruct (updateButtonStates_fields tk m) as (Hb & Hg & _ & Hl & Ha).
  fold m' in Hb, Hg, Hl, Ha.
  destruct (update_loop_session (millis_update tk) (digitalRead tk)
              (buttons m) 0 m) as (Hcg & _ & Hcons).
  destruct (Hcons Hpp) as (Hact & _ & Hlast).
  split; [|split; [|split; [|split]]].
  - destruct (update_loop_nth (millis_update tk) (digitalRead tk)
                (buttons m) 0 m k btn Hnth) as [mk Hk].
    simpl in Hk. rewrite <- Hb in Hk.
    eexists. split; [exact Hk|].
    destruct (update_button_button (millis_update tk)
                (reading_of (digitalRead tk k (pin btn))) btn mk)
      as (Hp & _ & He).
    destruct (He Hedge) as (? & ? & ?). tauto.
  - rewrite Hg, Hcg. apply in_or_app. now right.
  - congruence.
  - congruence.
  - unfold checkInput, analyzeGesture, gesture_complete. fold m'.
    rewrite Hb, (update_loop_anyPressed _ _ _ _ _ Hpp). reflexivity.
Qed.

Lemma press_tick_extends_session_witness :
  currentGesture (fst (updateButtonStates (tick_at 1200 [4]) clicked_manager))
  = [2] /\
  In 4 (currentGesture
          (fst (updateButtonStates (tick_at 1260 [4])
                  (snd (checkInput (tick_at 1200 [4]) clicked_manager))))).
Proof.
  split; [reflexivity|].
  refine (proj1 (proj2
    (press_tick_extends_session (tick_at 1260 [4])
       (snd (checkInput (tick_at 1200 [4]) clicked_manager)) 1
       {| pin := 4; currentState := false; lastState := true;
          pressStartTime := 0; lastChangeTime := 1200; isPressed := false |}
       _ _))); vm_compute; reflexivity.
Defined.

(** X5.  What the sampling of one tick does to the session: without a
    press edge the four session fields are untouched (releases and
    bounces never reach the accumulator); with one, the session is
    active, [lastButtonTime] is the time of the tick, and
    [gestureStartTime] is the time of the tick only if the session was
    not active before - later presses keep the start of the session. *)
Theorem session_stamps_of_tick (tk : Tick) (m : TeethInputManager) :
  let m' := fst (updateButtonStates tk m) in
  let pp := pressed_pins (millis_update tk) (digitalRead tk) 0 (buttons m) in
  (pp = [] ->
   currentGesture m' = currentGesture m /\
   gestureActive m' = gestureActive m /\
   gestureStartTime m' = gestureStartTime m /\
   lastButtonTime m' = lastButtonTime m) /\
  (pp <> [] ->
   gestureActive m' = true /\
   lastButtonTime m' = millis_update tk /\
   gestureStartTime m' =
     (if gestureActive m then gestureStartTime m else millis_update tk)).
Proof.
  intros m' pp.
  destruct (updateButtonStates_fields tk m) as (_ & Hg & Hs & Hl & Ha).
  fold m' in Hg, Hs, Hl, Ha.
  destruct (update_loop_session (millis_update tk) (digitalRead tk)
              (buttons m) 0 m) as (Hcg & Hnil & Hcons).
  fold pp in Hcg, Hnil, Hcons.
  split.
  - intros Hpp. destruct (Hnil Hpp) as (H1 & H2 & H3).
    rewrite Hpp, app_nil_r in Hcg. repeat split; congruence.
  - intros Hpp. destruct (Hcons Hpp) as (H1 & H2 & H3).
    repeat split; congruence.
Qed.

Lemma session_stamps_of_tick_witness :
  gestureStartTime
    (fst (updateButtonStates (tick_at 1260 [4])
            (snd (checkInput (tick_at 1200 [4]) clicked_manager)))) = 1060 /\
  lastButtonTime
    (fst (updateButtonStates (tick_at 1260 [4])
            (snd (checkInput (tick_at 1200 [4]) clicked_manager)))) = 1260.
Proof.
  destruct (session_stamps_of_tick (tick_at 1260 [4])
              (snd (checkInput (tick_at 1200 [4]) clicked_manager)))
    as (_ & Hcons).
  destruct Hcons as (_ & Hl & Hs); [vm_compute; discriminate|].
  split; [rewrite Hs; reflexivity|rewrite Hl; reflexivity].
Defined.

Lemma idle_tick_returns_default (tk : Tick) (m : TeethInputManager) :
  gestureActive m = false -> fst (checkInput tk m) = TeethInput_default.
Proof.
  intros Hidle.
  destruct (updateButtonStates_fields tk m) as (Hb & _ & _ & _ & Ha).
  destruct (update_loop_session (millis_update tk) (digitalRead tk)
              (buttons m) 0 m) as (_ & Hnil & _).
  unfold checkInput, analyzeGesture, gesture_complete.
  destruct (pressed_pins (millis_update tk) (digitalRead tk) 0 (buttons m))
    as [|p ps] eqn:Hpp.
  - destruct (Hnil eq_refl) as (Hact & _).
    rewrite Ha, Hact, Hidle, andb_false_r. reflexivity.
  - rewrite Hb, (update_loop_anyPressed _ _ _ 0%nat m); [reflexivity|].
    rewrite Hpp. discriminate.
Qed.

(** X6.  A gesture is returned once: a tick that starts with an idle
    session returns the default (invalid) result whatever the board
    reads, even if a press is accepted in it; and since a tick that
    returns a valid gesture leaves the session idle, no two consecutive
    ticks both return a valid gesture. *)
Theorem gesture_returned_once (tk1 tk2 : Tick) (m : TeethInputManager) :
  (gestureActive m = false -> fst (checkInput tk1 m) = TeethInput_default) /\
  (isValid (fst (checkInput tk1 m)) = true ->
   gestureActive (snd (checkInput tk1 m)) = false /\
   currentGesture (snd (checkInput tk1 m)) = [] /\
   fst (checkInput tk2 (snd (checkInput tk1 m))) = TeethInput_default).
Proof.
  split; [apply idle_tick_returns_default|].
  intros Hv.
  assert (gestureActive (snd (checkInput tk1 m)) = false /\
          currentGesture (snd (checkInput tk1 m)) = []) as [Hidle Hnil].
  { unfold checkInput, analyzeGesture in *.
    destruct (gesture_complete _ _); simpl in *; [split; reflexivity|].
    discriminate. }
  repeat split; try assumption.
  now apply idle_tick_returns_default.
Qed.

Lemma gesture_returned_once_witness :
  isValid (fst (checkInput (tick_at 1561 []) clicked_manager)) = true /\
  fst (checkInput (tick_at 1562 [])
         (snd (checkInput (tick_at 1561 []) clicked_manager)))
  = TeethInput_default.
Proof.
  assert (isValid (fst (checkInput (tick_at 1561 []) clicked_manager)) = true)
    as H by (vm_compute; reflexivity).
  split; [exact H|].
  exact (proj2 (proj2 (proj2
    (gesture_returned_once (tick_at 1561 []) (tick_at 1562 [])
       clicked_manager) H))).
Defined.

(** ** Reported durations *)

Lemma updateButtonStates_stamps (tk : Tick) (t : Z) (m : TeethInputManager) :
  0 <= t -> t <= millis_update tk ->
  stamps_ordered t m ->
  stamps_ordered (millis_update tk) (fst (updateButtonStates tk m)).
Proof.
  intros Ht Hnow Hord.
  destruct (updateButtonStates_fields tk m) as (_ & _ & Hs & Hl & Ha).
  destruct (update_loop_session (millis_update tk) (digitalRead tk)
              (buttons m) 0 m) as (_ & Hnil & Hcons).
  unfold stamps_ordered in *. rewrite Hs, Hl, Ha.
  destruct (pressed_pins (millis_update tk) (digitalRead tk) 0 (buttons m))
    as [|p ps].
  - destruct (Hnil eq_refl) as (-> & -> & ->). intros Hact.
    specialize (Hord Hact). lia.
  - destruct Hcons as (_ & -> & ->); [discriminate|]. intros _.
    destruct (gestureActive m); [specialize (Hord eq_refl)|]; lia.
Qed.

Lemma checkInput_stamps (tk : Tick) (t : Z) (m : TeethInputManager) :
  0 <= t -> t <= millis_update tk ->
  millis_update tk <= millis_analyze tk -> millis_analyze tk < ULONG_MOD ->
  stamps_ordered t m ->
  stamps_ordered (millis_analyze tk) (snd (checkInput tk m)) /\
  (isValid (fst (checkInput tk m)) = true ->
   exists presses d,
     presses <> [] /\ MULTI_PRESS_WINDOW < d < ULONG_MOD /\
     fst (checkInput tk m) = fill_result presses d).
Proof.
  intros Ht Hu Ha Hmax Hord.
  pose proof (updateButtonStates_stamps tk t m Ht Hu Hord) as Hord'.
  unfold checkInput, analyzeGesture.
  destruct (gesture_complete (millis_analyze tk)
              (fst (updateButtonStates tk m))) eqn:Hc; simpl.
  - split; [unfold stamps_ordered; simpl; discriminate|].
    apply gesture_complete_spec in Hc as (Hact & _ & Hwin).
    specialize (Hord' Hact).
    unfold classify.
    destruct (currentGesture (fst (updateButtonStates tk m))) as [|c cs];
      [discriminate|]. intros _.
    exists (c :: cs),
      (ulong_sub (millis_analyze tk)
         (gestureStartTime (fst (updateButtonStates tk m)))).
    split; [discriminate|]. split; [|reflexivity].
    unfold ulong_sub in *.
    rewrite wrap_ulong_id in Hwin by (unfold in_ulong; lia).
    rewrite wrap_ulong_id by (unfold in_ulong; lia).
    unfold MULTI_PRESS_WINDOW in *. lia.
  - split; [|discriminate].
    unfold stamps_ordered in *. intros Hact. specialize (Hord' Hact). lia.
Qed.

Lemma run_ticks_durations (tks : list Tick) : forall t m r,
  0 <= t -> clock_monotone t tks -> stamps_ordered t m ->
  In r (fst (run_ticks tks m)) -> isValid r = true ->
  exists presses d,
    presses <> [] /\ MULTI_PRESS_WINDOW < d < ULONG_MOD /\
    r = fill_result presses d.
Proof.
  induction tks as [|tk rest IH]; intros t m r Ht Hclk Hord Hr Hv;
    simpl in *; [destruct Hr|].
  destruct Hclk as (Hu & Ha & Hmax & Hrest).
  destruct (checkInput_stamps tk t m Ht Hu Ha Hmax Hord) as [Hord1 Hres].
  destruct (checkInput tk m) as [r1 m1].
  specialize (IH (millis_analyze tk) m1 r).
  destruct (run_ticks rest m1) as [rs m2]. simpl in *.
  destruct Hr as [<-|Hr]; [now apply Hres|].
  apply IH; try assumption. lia.
Qed.

(** X7.  When the readings of [millis()] never go back and do not
    overflow during the run, every valid result returned after [init]
    was classified with a duration strictly greater than
    [MULTI_PRESS_WINDOW] (500 ms): the duration runs from the first press
    to the tick that detects quiescence, so it always includes the
    waiting time.  A reported "single_click" therefore stands for a
    duration in (500, 800] ms. *)
Theorem reported_duration_exceeds_window (tks : list Tick) (t0 : Z)
    (m0 : TeethInputManager) (pins : list Z) (r : TeethInput) :
  0 <= t0 -> clock_monotone t0 tks ->
  In r (fst (run_ticks tks (init m0 pins))) -> isValid r = true ->
  exists presses d,
    presses <> [] /\ MULTI_PRESS_WINDOW < d < ULONG_MOD /\
    r = fill_result presses d /\
    gesture r = getGestureType presses d /\
    (gesture r = "single_click"%string -> d <= LONG_PRESS_TIME).
Proof.
  intros Ht Hclk Hr Hv.
  destruct (run_ticks_durations tks t0 (init m0 pins) r Ht Hclk)
    as (presses & d & Hne & Hd & ->); try assumption.
  { unfold stamps_ordered, init; simpl. discriminate. }
  exists presses, d. repeat split; try tauto.
  cbn [gesture fill_result]. destruct presses as [|c cs]; [congruence|].
  unfold getGestureType.
  destruct (int_of_size (List.length (sorted_unique (c :: cs))) =? 1).
  - destruct (Z.gtb_spec d LONG_PRESS_TIME); [discriminate|intros _; lia].
  - destruct (_ >? 1); [|discriminate].
    destruct (_ && _); discriminate.
Qed.

Lemma reported_duration_exceeds_window_witness :
  clock_monotone 0 (click_ticks ++ [tick_at 1561 []]) /\
  exists presses d,
    presses <> [] /\ MULTI_PRESS_WINDOW < d < ULONG_MOD /\
    {| isValid := true; gesture := "single_click"; teeth := [2];
       duration := seconds_of_millis 501 |} = fill_result presses d.
Proof.
  assert (clock_monotone 0 (click_ticks ++ [tick_at 1561 []])) as Hclk
    by (vm_compute; intuition discriminate).
  split; [exact Hclk|].
  destruct (reported_duration_exceeds_window
              (click_ticks ++ [tick_at 1561 []]) 0 raw_manager default_pins
              {| isValid := true; gesture := "single_click"; teeth := [2];
                 duration := seconds_of_millis 501 |})
    as (presses & d & H1 & H2 & H3 & _).
  - vm_compute. discriminate.
  - exact Hclk.
  - vm_compute. do 4 right. left. reflexivity.
  - reflexivity.
  - exists presses, d. auto.
Defined.

(** ** What the gesture names stand for *)

Lemma unique_count_1_length_1 (presses : list Z) :
  unique_count presses = 1%nat -> (List.length presses <= 1)%nat ->
  exists c, presses = [c].
Proof.
  destruct presses as [|c [|c' l]]; simpl; intros Hu Hl;
    [discriminate|now exists c|lia].
Qed.

(** X8.  Read backwards, for a press sequence whose size fits an [int]:
    "single_click" is returned exactly for one press with a duration of
    at most 800 ms; "long_press" exactly for presses of one channel with
    a duration above 800 ms; and "slide" only for at least two distinct
    channels whose raw press order passed the adjacency loop. *)
Theorem gesture_names_meaning (presses : list Z) (d : Z) :
  presses <> [] ->
  Z.of_nat (List.length presses) <= INT_MAX ->
  (getGestureType presses d = "single_click"%string <->
   (exists c, presses = [c]) /\ d <= LONG_PRESS_TIME) /\
  (getGestureType presses d = "long_press"%string <->
   unique_count presses = 1%nat /\ LONG_PRESS_TIME < d) /\
  (getGestureType presses d = "slide"%string ->
   (2 <= unique_count presses)%nat /\ is_slide presses = true).
Proof.
  intros Hne Hlen.
  pose proof (unique_count_pos presses Hne) as Hpos.
  pose proof (unique_count_le_length presses) as Hle.
  assert (Z.of_nat (unique_count presses) <= INT_MAX) as Hint by lia.
  destruct presses as [|first rest]; [congruence|].
  rewrite (getGestureType_cases first rest d Hint). cbv zeta.
  rewrite (int_of_size_id _ Hlen).
  destruct (Z.eqb_spec (Z.of_nat (unique_count (first :: rest))) 1)
    as [Hone|Hmany].
  - assert (unique_count (first :: rest) = 1%nat) as Hone' by lia.
    destruct (Z.gtb_spec d LONG_PRESS_TIME) as [Hlong|Hshort].
    + split; [|split]; [split| |discriminate].
      * discriminate.
      * intros [_ ?]; lia.
      * split; [intros _; split; assumption|reflexivity].
    + destruct (Z.gtb_spec (Z.of_nat (List.length (first :: rest))) 1)
        as [Hrep|Hsingle].
      * split; [|split]; [split| |discriminate].
        -- discriminate.
        -- intros [[c Hc] _]. rewrite Hc in Hrep. simpl in Hrep. lia.
        -- split; [discriminate|intros [_ ?]; lia].
      * split; [|split]; [split| |discriminate].
        -- intros _. split; [|lia].
           apply unique_count_1_length_1; [exact Hone'|lia].
        -- reflexivity.
        -- split; [discriminate|intros [_ ?]; lia].
  - split; [|split].
    + split.
      * destruct (_ && _); discriminate.
      * intros [[c Hc] _]. rewrite Hc in Hmany. now elim Hmany.
    + split.
      * destruct (_ && _); discriminate.
      * intros [Hu _]. lia.
    + simpl is_slide. destruct (slide_loop first rest); simpl;
        [|discriminate].
      intros _. split; [lia|reflexivity].
Qed.

Lemma gesture_names_meaning_witness :
  getGestureType [3] 700 = "single_click"%string /\
  (getGestureType [5; 5] 900 = "long_press"%string <->
   unique_count [5; 5] = 1%nat /\ LONG_PRESS_TIME < 900).
Proof.
  assert ([3] <> []) as H1 by discriminate.
  assert (Z.of_nat (List.length [3]) <= INT_MAX) as H2
    by (vm_compute; discriminate).
  assert ([5; 5] <> []) as H3 by discriminate.
  assert (Z.of_nat (List.length [5; 5]) <= INT_MAX) as H4
    by (vm_compute; discriminate).
  split.
  - apply (proj1 (gesture_names_meaning [3] 700 H1 H2)).
    split; [now exists 3|vm_compute; discriminate].
  - exact (proj1 (proj2 (gesture_names_meaning [5; 5] 900 H3 H4))).
Defined.

(** ** Direction of a slide *)

(** [abs(a - b)] and [abs(b - a)] agree on [int], overflow included. *)
Lemma int_abs_sub_sym (a b : Z) :
  int_abs (int_sub a b) = int_abs (int_sub b a).
Proof.
  unfold int_abs, int_sub, wrap_int, INT_MIN, ULONG_MOD.
  assert (H : ((a - b - -2147483648) mod 4294967296 + -2147483648 =
               - ((b - a - -2147483648) mod 4294967296 + -2147483648)) \/
              ((a - b - -2147483648) mod 4294967296 + -2147483648 =
               -2147483648 /\
               (b - a - -2147483648) mod 4294967296 + -2147483648 =
               -2147483648)).
  { Z.div_mod_to_equations. lia. }
  destruct H as [->|[-> ->]]; [|reflexivity].
  now rewrite Z.abs_opp.
Qed.

Lemma is_slide_consecutive (sequence : list Z) :
  is_slide sequence = true <->
  consecutive (fun a b => (int_abs (int_sub b a) =? 1) = true) sequence.
Proof.
  destruct sequence as [|first rest]; [simpl; tauto|].
  revert first. induction rest as [|x rest IH]; intros first.
  - simpl. tauto.
  - change (consecutive (fun a b => (int_abs (int_sub b a) =? 1) = true)
              (first :: x :: rest))
      with ((int_abs (int_sub x first) =? 1) = true /\
            consecutive (fun a b => (int_abs (int_sub b a) =? 1) = true)
              (x :: rest)).
    rewrite <- (IH x). simpl.
    destruct (int_abs (int_sub x first) =? 1); simpl; intuition congruence.
Qed.

Lemma consecutive_snoc (P : Z -> Z -> Prop) (l : list Z) (x y : Z) :
  consecutive P (l ++ [x; y]) <-> consecutive P (l ++ [x]) /\ P x y.
Proof.
  induction l as [|a l IH].
  - simpl. tauto.
  - destruct l as [|b l].
    + simpl. tauto.
    + change (consecutive P ((a :: b :: l) ++ [x; y]))
        with (P a b /\ consecutive P ((b :: l) ++ [x; y])).
      change (consecutive P ((a :: b :: l) ++ [x]))
        with (P a b /\ consecutive P ((b :: l) ++ [x])).
      rewrite IH. tauto.
Qed.

Lemma consecutive_rev (P : Z -> Z -> Prop) (l : list Z) :
  consecutive P (rev l) <-> consecutive (fun a b => P b a) l.
Proof.
  induction l as [|a l IH]; [simpl; tauto|].
  destruct l as [|b l]; [simpl; tauto|].
  change (consecutive (fun a b => P b a) (a :: b :: l))
    with (P b a /\ consecutive (fun a b => P b a) (b :: l)).
  rewrite <- IH.
  change (rev (a :: b :: l)) with ((rev l ++ [b]) ++ [a]).
  rewrite <- app_assoc. change ([b] ++ [a]) with [b; a].
  rewrite consecutive_snoc. change (rev (b :: l)) with (rev l ++ [b]).
  tauto.
Qed.

Lemma consecutive_ext (P Q : Z -> Z -> Prop) (l : list Z) :
  (forall a b, P a b <-> Q a b) -> consecutive P l <-> consecutive Q l.
Proof.
  intros Hpq. induction l as [|a l IH]; [simpl; tauto|].
  destruct l as [|b l]; [simpl; tauto|].
  change (consecutive P (a :: b :: l)) with (P a b /\ consecutive P (b :: l)).
  change (consecutive Q (a :: b :: l)) with (Q a b /\ consecutive Q (b :: l)).
  rewrite IH, Hpq. tauto.
Qed.

Lemma is_slide_rev (sequence : list Z) :
  is_slide (rev sequence) = is_slide sequence.
Proof.
  apply Bool.eq_iff_eq_true.
  rewrite !is_slide_consecutive, consecutive_rev.
  apply consecutive_ext. intros a b. now rewrite int_abs_sub_sym.
Qed.

Lemma sorted_unique_members (v w : list Z) :
  (forall c, In c v <-> In c w) -> sorted_unique v = sorted_unique w.
Proof.
  intros H. apply strictly_sorted_unique_repr;
    try apply sorted_unique_sorted.
  intros c. now rewrite !sorted_unique_In.
Qed.

Lemma getGestureType_is_slide (sequence : list Z) (d : Z) :
  sequence <> [] ->
  getGestureType sequence d =
    let uniqueCount := int_of_size (List.length (sorted_unique sequence)) in
    let totalPresses := int_of_size (List.length sequence) in
    if uniqueCount =? 1 then
      if d >? LONG_PRESS_TIME then "long_press"%string
      else if totalPresses >? 1 then "multi_press"%string
      else "single_click"%string
    else if uniqueCount >? 1 then
      if is_slide sequence &&
         (d <? ulong_mul SLIDE_MAX_INTERVAL (ulong_of_int uniqueCount))
      then "slide"%string
      else "multi_press"%string
    else "unknown"%string.
Proof. destruct sequence; [congruence|reflexivity]. Qed.

(** X9.  The classification does not see the direction of a gesture: a
    press sequence and its reverse get the same gesture name for every
    duration, machine overflow included ([2,3,4] and [4,3,2] are both
    slides), and the same sorted set of teeth. *)
Theorem gesture_blind_to_direction (presses : list Z) (d : Z) :
  getGestureType (rev presses) d = getGestureType presses d /\
  sorted_unique (rev presses) = sorted_unique presses.
Proof.
  assert (sorted_unique (rev presses) = sorted_unique presses) as Hsu
    by (apply sorted_unique_members; intros c; symmetry; apply in_rev).
  split; [|exact Hsu].
  destruct presses as [|c cs]; [reflexivity|].
  rewrite !getGestureType_is_slide.
  - now rewrite Hsu, is_slide_rev, length_rev.
  - discriminate.
  - simpl. intros H. now apply app_eq_nil in H as [_ H].
Qed.

(** * Properties of the UDP sender *)

Lemma wrap_ulong_succ (z : Z) : wrap_ulong (wrap_ulong z + 1) = wrap_ulong (z + 1).
Proof. unfold wrap_ulong. now rewrite Zplus_mod_idemp_l. Qed.

Lemma run_sends_counts (evs : list UDP.Send) : forall s q f p g,
  UDP.questSentCount s = wrap_ulong q ->
  UDP.questFailCount s = wrap_ulong f ->
  UDP.pcSentCount s = wrap_ulong p ->
  UDP.pcFailCount s = wrap_ulong g ->
  let s' := UDP.run_sends evs s in
  UDP.questSentCount s' = wrap_ulong (q + UDP.count_sends true true evs) /\
  UDP.questFailCount s' = wrap_ulong (f + UDP.count_sends true false evs) /\
  UDP.pcSentCount s' = wrap_ulong (p + UDP.count_sends false true evs) /\
  UDP.pcFailCount s' = wrap_ulong (g + UDP.count_sends false false evs).
Proof.
  unfold UDP.count_sends.
  induction evs as [|ev rest IH]; intros s q f p g Hq Hf Hp Hg; cbv zeta.
  - simpl. rewrite !Z.add_0_r. tauto.
  - cbn [UDP.run_sends filter].
    destruct ev as [a len now|a len now]; cbn [UDP.send UDP.counts];
      unfold UDP.sendToQuest, UDP.sendToPC; cbv zeta;
      destruct (UDP.sendUDP a len);
      cbn [snd andb negb Bool.eqb List.length].
    + destruct (IH (UDP.mkSender (wrap_ulong (UDP.questSentCount s + 1))
                      (UDP.questFailCount s) (UDP.pcSentCount s)
                      (UDP.pcFailCount s) now (UDP.lastPCSuccess s))
                   (q + 1) f p g) as (H1 & H2 & H3 & H4); cbn; try assumption.
      { now rewrite Hq, wrap_ulong_succ. }
      rewrite H1, H2, H3, H4. repeat split; f_equal; lia.
    + destruct (IH (UDP.mkSender (UDP.questSentCount s)
                      (wrap_ulong (UDP.questFailCount s + 1))
                      (UDP.pcSentCount s) (UDP.pcFailCount s)
                      (UDP.lastQuestSuccess s) (UDP.lastPCSuccess s))
                   q (f + 1) p g) as (H1 & H2 & H3 & H4); cbn; try assumption.
      { now rewrite Hf, wrap_ulong_succ. }
      rewrite H1, H2, H3, H4. repeat split; f_equal; lia.
    + destruct (IH (UDP.mkSender (UDP.questSentCount s)
                      (UDP.questFailCount s)
                      (wrap_ulong (UDP.pcSentCount s + 1))
                      (UDP.pcFailCount s)
                      (UDP.lastQuestSuccess s) now)
                   q f (p + 1) g) as (H1 & H2 & H3 & H4); cbn; try assumption.
      { now rewrite Hp, wrap_ulong_succ. }
      rewrite H1, H2, H3, H4. repeat split; f_equal; lia.
    + destruct (IH (UDP.mkSender (UDP.questSentCount s)
                      (UDP.questFailCount s) (UDP.pcSentCount s)
                      (wrap_ulong (UDP.pcFailCount s + 1))
                      (UDP.lastQuestSuccess s) (UDP.lastPCSuccess s))
                   q f p (g + 1)) as (H1 & H2 & H3 & H4); cbn; try assumption.
      { now rewrite Hg, wrap_ulong_succ. }
      rewrite H1, H2, H3, H4. repeat split; f_equal; lia.
Qed.

Lemma count_sends_partition (evs : list UDP.Send) :
  UDP.count_sends true true evs + UDP.count_sends true false evs +
  UDP.count_sends false true evs + UDP.count_sends false false evs =
  Z.of_nat (List.length evs).
Proof.
  unfold UDP.count_sends. induction evs as [|ev rest IH]; [reflexivity|].
  cbn [filter List.length].
  destruct ev as [a len now|a len now]; cbn [UDP.counts];
    destruct (UDP.sendUDP a len); cbn [andb negb Bool.eqb List.length]; lia.
Qed.

(** X10.  After [init], whatever the network answers, every send is
    counted exactly once, on its own channel and as what it was: the
    four counters are the numbers of successful and failed Quest and PC
    sends of the history (modulo 2^32, the counters being
    [unsigned long]), and these four numbers add up to the number of
    sends. *)
Theorem udp_statistics_count_sends (evs : list UDP.Send) (t1 t2 : Z) :
  let s := UDP.run_sends evs (UDP.init t1 t2) in
  UDP.questSentCount s = wrap_ulong (UDP.count_sends true true evs) /\
  UDP.questFailCount s = wrap_ulong (UDP.count_sends true false evs) /\
  UDP.pcSentCount s = wrap_ulong (UDP.count_sends false true evs) /\
  UDP.pcFailCount s = wrap_ulong (UDP.count_sends false false evs) /\
  UDP.count_sends true true evs + UDP.count_sends true false evs +
  UDP.count_sends false true evs + UDP.count_sends false false evs =
  Z.of_nat (List.length evs).
Proof.
  cbv zeta.
  destruct (run_sends_counts evs (UDP.init t1 t2) 0 0 0 0)
    as (H1 & H2 & H3 & H4); try reflexivity.
  rewrite H1, H2, H3, H4. repeat split. apply count_sends_partition.
Qed.

Lemma run_sends_last_success (evs : list UDP.Send) : forall s,
  UDP.lastQuestSuccess (UDP.run_sends evs s) =
  UDP.last_success true (UDP.lastQuestSuccess s) evs /\
  UDP.lastPCSuccess (UDP.run_sends evs s) =
  UDP.last_success false (UDP.lastPCSuccess s) evs.
Proof.
  induction evs as [|ev rest IH]; intros s; [split; reflexivity|].
  cbn [UDP.run_sends UDP.last_success].
  destruct (IH (UDP.send ev s)) as [-> ->].
  destruct ev as [a len now|a len now]; cbn [UDP.send];
    unfold UDP.sendToQuest, UDP.sendToPC; cbv zeta;
    destruct (UDP.sendUDP a len); split; reflexivity.
Qed.

Lemma last_success_none (quest : bool) (evs : list UDP.Send) : forall t0,
  UDP.count_sends quest true evs = 0 -> UDP.last_success quest t0 evs = t0.
Proof.
  unfold UDP.count_sends.
  induction evs as [|ev rest IH]; intros t0 H0; [reflexivity|].
  cbn [UDP.last_success filter] in *.
  destruct ev as [a len tn|a len tn]; cbn [UDP.counts] in H0;
    destruct quest, (UDP.sendUDP a len);
    cbn [andb negb Bool.eqb List.length] in *;
    try (now apply IH); lia.
Qed.

(** X11.  The connection state of a channel depends only on the last
    successful send on that channel, or on [init] if there is none:
    after any history, [isQuestConnected] at time [now] holds exactly
    when less than [CONNECTION_TIMEOUT] (10 s) have passed since then;
    failed sends and sends on the other channel never refresh it.  In
    particular a sender that has never delivered anything reports both
    channels connected during the 10 s that follow [init]. *)
Theorem udp_connection_follows_last_success (evs : list UDP.Send)
    (t1 t2 now : Z) :
  let s := UDP.run_sends evs (UDP.init t1 t2) in
  UDP.isQuestConnected now s =
    (ulong_sub now (UDP.last_success true t1 evs) <? 10000) /\
  UDP.isPCConnected now s =
    (ulong_sub now (UDP.last_success false t2 evs) <? 10000) /\
  (UDP.count_sends true true evs = 0 ->
   UDP.last_success true t1 evs = t1) /\
  (UDP.count_sends false true evs = 0 ->
   UDP.last_success false t2 evs = t2).
Proof.
  cbv zeta.
  destruct (run_sends_last_success evs (UDP.init t1 t2)) as [Hq Hp].
  unfold UDP.isQuestConnected, UDP.isPCConnected. rewrite Hq, Hp.
  split; [reflexivity|]. split; [reflexivity|].
  split; apply last_success_none.
Qed.

(** * Properties of the configuration manager *)

(** ** The device id *)

Lemma string_app_assoc (s1 s2 s3 : string) :
  ((s1 ++ s2) ++ s3 = s1 ++ (s2 ++ s3))%string.
Proof. induction s1 as [|ch s1 IH]; simpl; [reflexivity|now rewrite IH]. Qed.

Lemma toUpperCase_app (s1 s2 : string) :
  Config.toUpperCase (s1 ++ s2) =
  (Config.toUpperCase s1 ++ Config.toUpperCase s2)%string.
Proof. induction s1 as [|ch s1 IH]; simpl; [reflexivity|now rewrite IH]. Qed.

Lemma append_mac_cons (b : Z) (rest : list Z) (id : string) :
  Config.append_mac (b :: rest) id =
  Config.append_mac rest (id ++ Config.byte_digits b).
Proof.
  simpl. unfold Config.byte_digits.
  destruct (b <? 16); [now rewrite string_app_assoc|reflexivity].
Qed.

Lemma all_digits_read_back :
  forallb Config.digits_read_back (map Z.of_nat (seq 0 256)) = true.
Proof. vm_compute. reflexivity. Qed.

Lemma byte_digits_read_back (b : Z) :
  0 <= b < 256 ->
  exists hi lo,
    Config.toUpperCase (Config.byte_digits b) =
    String hi (String lo EmptyString) /\
    16 * Config.hex_value hi + Config.hex_value lo = b.
Proof.
  intros Hb.
  pose proof all_digits_read_back as Hall.
  rewrite forallb_forall in Hall.
  specialize (Hall b). unfold Config.digits_read_back in Hall.
  destruct (Config.toUpperCase (Config.byte_digits b))
    as [|hi [|lo [|? ?]]];
    try (discriminate Hall; apply in_map_iff; exists (Z.to_nat b);
         split; [lia|apply in_seq; lia]).
  exists hi, lo. split; [reflexivity|].
  apply Z.eqb_eq, Hall. apply in_map_iff. exists (Z.to_nat b).
  split; [lia|apply in_seq; lia].
Qed.

Lemma all_digits_are_hex_pair :
  forallb Config.digits_are_hex_pair (map Z.of_nat (seq 0 256)) = true.
Proof. vm_compute. reflexivity. Qed.

Lemma byte_digits_hex_pair (b : Z) :
  0 <= b < 256 ->
  Config.toUpperCase (Config.byte_digits b) = Config.hex_pair b /\
  forallb Config.is_upper_hex (list_ascii_of_string (Config.hex_pair b))
  = true /\
  16 * Config.hex_value (Config.upper_hex_digit (b / 16))
  + Config.hex_value (Config.upper_hex_digit (b mod 16)) = b.
Proof.
  intros Hb.
  pose proof all_digits_are_hex_pair as Hall.
  rewrite forallb_forall in Hall.
  assert (In b (map Z.of_nat (seq 0 256))) as Hin.
  { apply in_map_iff. exists (Z.to_nat b). split; [lia|apply in_seq; lia]. }
  specialize (Hall b Hin). unfold Config.digits_are_hex_pair in Hall.
  rewrite !andb_true_iff in Hall. destruct Hall as [[H1 H2] H3].
  split; [now apply String.eqb_eq|]. split; [exact H2|now apply Z.eqb_eq].
Qed.

(** The id of a six-byte address, in full. *)
Lemma device_id_of_mac (mac : list Z) :
  Config.is_mac mac ->
  Config.toUpperCase (Config.append_mac mac "ESP32_") =
  ("ESP32_" ++ Config.mac_hex mac)%string /\
  forallb Config.is_upper_hex (list_ascii_of_string (Config.mac_hex mac))
  = true /\
  String.length (Config.mac_hex mac) = 12%nat /\
  Config.parse_hex_pairs (Config.mac_hex mac) = mac.
Proof.
  intros [Hlen Hall].
  destruct mac as [|b1 [|b2 [|b3 [|b4 [|b5 [|b6 [|? ?]]]]]]];
    try discriminate Hlen.
  repeat match goal with
         | H : Forall _ (_ :: _) |- _ => inversion H; clear H; subst
         end.
  rewrite !append_mac_cons. cbn [Config.append_mac].
  rewrite !toUpperCase_app.
  repeat match goal with
         | H : 0 <= ?b < 256 |- _ =>
             let E1 := fresh "E" in
             let E2 := fresh "U" in
             let E3 := fresh "V" in
             destruct (byte_digits_hex_pair b H) as (E1 & E2 & E3);
             rewrite E1; clear H E1
         end.
  split; [reflexivity|].
  cbn [Config.mac_hex]. unfold Config.hex_pair in *.
  cbn [String.append list_ascii_of_string forallb
       String.length Config.parse_hex_pairs] in *.
  repeat match goal with
         | H : _ && (_ && true) = true |- _ =>
             rewrite andb_true_r in H;
             apply andb_true_iff in H; destruct H as [? ?]
         end.
  split.
  - repeat match goal with
           | H : Config.is_upper_hex _ = true |- _ => rewrite H; clear H
           end.
    reflexivity.
  - split; [reflexivity|]. congruence.
Qed.

(** X12.  For a six-byte MAC address, [generateDeviceID] changes
    [deviceID] and nothing else, and sets it to "ESP32_" followed by the
    twelve upper-case hexadecimal digits of the address, two per byte,
    high digit first (the "0" added below 16 keeps them two).  The id
    therefore has 18 characters, its last twelve are all among 0-9 and
    A-F, and the MAC address can be read back from it: two devices with
    different addresses never get the same id. *)
Theorem device_id_encodes_mac (mac : list Z) (c : Config.ConfigManager) :
  Config.is_mac mac ->
  let c' := Config.generateDeviceID mac c in
  c' =
  {| Config.wifiSSID := Config.wifiSSID c;
     Config.wifiPassword := Config.wifiPassword c;
     Config.questIP := Config.questIP c;
     Config.questPort := Config.questPort c;
     Config.pcIP := Config.pcIP c;
     Config.pcPort := Config.pcPort c;
     Config.buttonPins := Config.buttonPins c;
     Config.deviceID := ("ESP32_" ++ Config.mac_hex mac)%string |} /\
  forallb Config.is_upper_hex
    (list_ascii_of_string (String.substring 6 12 (Config.deviceID c')))
  = true /\
  String.length (Config.deviceID c') = 18%nat /\
  String.substring 0 6 (Config.deviceID c') = "ESP32_"%string /\
  Config.mac_of_id (Config.deviceID c') = mac /\
  (forall mac', Config.is_mac mac' ->
     Config.deviceID (Config.generateDeviceID mac' c) = Config.deviceID c' ->
     mac' = mac) /\
  Config.isValid c' = Config.isValid c /\
  Config.buttonPins c' = Config.buttonPins c.
Proof.
  assert (Hsub : forall s, String.length s = 12%nat ->
            String.substring 6 12 ("ESP32_" ++ s) = s).
  { intros s Hs.
    destruct s as [|c1 [|c2 [|c3 [|c4 [|c5 [|c6 [|c7 [|c8 [|c9 [|c10 [|c11
      [|c12 [|? ?]]]]]]]]]]]]]; try discriminate Hs. reflexivity. }
  assert (Hrt : forall m, Config.is_mac m ->
            Config.mac_of_id
              (Config.toUpperCase (Config.append_mac m "ESP32_")) = m).
  { intros m Hm. destruct (device_id_of_mac m Hm) as (-> & _ & Hl & Hp).
    unfold Config.mac_of_id. now rewrite (Hsub _ Hl). }
  intros Hmac c'. subst c'.
  destruct (device_id_of_mac mac Hmac) as (Hid & Hhex & Hl & Hp).
  unfold Config.generateDeviceID at 1 2 3 4 5.
  cbn [Config.deviceID]. rewrite Hid.
  split; [reflexivity|].
  split; [now rewrite (Hsub _ Hl)|].
  split; [cbn [String.append String.length]; now rewrite Hl|].
  split; [now destruct (Config.mac_hex mac)|].
  split; [rewrite <- Hid; now apply Hrt|].
  split; [|split; reflexivity].
  intros mac' Hmac' Heq. cbn [Config.deviceID Config.generateDeviceID] in Heq.
  rewrite <- (Hrt mac' Hmac'), Heq. now apply Hrt.
Qed.

Lemma device_id_encodes_mac_witness :
  Config.is_mac Config.sample_mac /\
  Config.generateDeviceID Config.sample_mac Config.home =
  {| Config.wifiSSID := "lab"; Config.wifiPassword := "secret";
     Config.questIP := "10.0.0.7"; Config.questPort := 8888;
     Config.pcIP := "10.0.0.9"; Config.pcPort := 9999;
     Config.buttonPins := [2; 4; 5; 18; 19; 21; 22; 23; 25; 26];
     Config.deviceID := "ESP32_240AC400AB05" |} /\
  Config.mac_of_id "ESP32_240AC400AB05" = Config.sample_mac.
Proof.
  assert (Config.is_mac Config.sample_mac) as H.
  { split; [reflexivity|]. repeat constructor; vm_compute; discriminate. }
  destruct (device_id_encodes_mac Config.sample_mac Config.home H)
    as (Hc & _ & _ & _ & Hm & _).
  split; [exact H|]. split; [rewrite Hc; reflexivity|].
  exact Hm.
Defined.

(** ** Validity after [init] *)


(** ** The byte array is an EEPROM *)

Lemma byte_at_byte_of (v k : Z) :
  Z.of_N (N_of_ascii (Config.byte_of v k)) = (wrap_ulong v / 256 ^ k) mod 256.
Proof.
  unfold Config.byte_of.
  assert (0 <= (wrap_ulong v / 256 ^ k) mod 256 < 256) as Hr
    by (apply Z.mod_pos_bound; lia).
  rewrite N_ascii_embedding; [|lia].
  now rewrite Z2N.id.
Qed.

Ltac split_bounds :=
  repeat match goal with
         | |- context [?x <=? ?y] => destruct (Z.leb_spec x y)
         | |- context [?x <? ?y] => destruct (Z.ltb_spec x y)
         | |- context [?x =? ?y] => destruct (Z.eqb_spec x y)
         end;
  cbn [andb]; try reflexivity; try lia.

Lemma bytes_get_put_same (e : Config.Bytes) (a v : Z) :
  0 <= a -> a + 4 <= Config.EEPROM_SIZE -> in_int v ->
  Config.bytes_get a (Config.bytes_put a v e) = v.
Proof.
  intros Ha Hs Hv.
  unfold Config.bytes_get, Config.bytes_put, Config.byte_at.
  destruct (Z.leb_spec 0 a); [|lia].
  destruct (Z.leb_spec (a + 4) Config.EEPROM_SIZE); [|lia]. cbn [andb].
  replace ((a <=? a) && (a <? a + 4)) with true by (split_bounds).
  replace ((a <=? a + 1) && (a + 1 <? a + 4)) with true by (split_bounds).
  replace ((a <=? a + 2) && (a + 2 <? a + 4)) with true by (split_bounds).
  replace ((a <=? a + 3) && (a + 3 <? a + 4)) with true by (split_bounds).
  rewrite !byte_at_byte_of.
  replace (a - a) with 0 by lia. replace (a + 1 - a) with 1 by lia.
  replace (a + 2 - a) with 2 by lia. replace (a + 3 - a) with 3 by lia.
  change (256 ^ 0) with 1. change (256 ^ 1) with 256.
  change (256 ^ 2) with 65536. change (256 ^ 3) with 16777216.
  unfold wrap_int, wrap_ulong, in_int, INT_MIN, INT_MAX, ULONG_MOD in *.
  Z.div_mod_to_equations. lia.
Qed.

#[global] Instance bytes_laws :
  Config.EepromLaws Config.Bytes Config.EEPROM_SIZE.
Proof.
  constructor.
  - apply bytes_get_put_same.
  - intros e a b v Hd. cbn. unfold Config.bytes_get, Config.bytes_put.
    destruct ((0 <=? b) && (b + 4 <=? Config.EEPROM_SIZE)); [|reflexivity].
    unfold Config.byte_at. f_equal.
    replace ((b <=? a) && (a <? b + 4)) with false by split_bounds.
    replace ((b <=? a + 1) && (a + 1 <? b + 4)) with false by split_bounds.
    replace ((b <=? a + 2) && (a + 2 <? b + 4)) with false by split_bounds.
    replace ((b <=? a + 3) && (a + 3 <? b + 4)) with false by split_bounds.
    reflexivity.
  - intros e a b x Hd. cbn. unfold Config.bytes_get, Config.bytes_write.
    destruct ((0 <=? b) && (b <? Config.EEPROM_SIZE)); [|reflexivity].
    unfold Config.byte_at. f_equal.
    replace (a =? b) with false by split_bounds.
    replace (a + 1 =? b) with false by split_bounds.
    replace (a + 2 =? b) with false by split_bounds.
    replace (a + 3 =? b) with false by split_bounds.
    reflexivity.
  - intros e a x Ha. cbn. unfold Config.bytes_write.
    replace ((0 <=? a) && (a <? Config.EEPROM_SIZE)) with true
      by (unfold Config.EEPROM_SIZE in *; split_bounds).
    now rewrite Z.eqb_refl.
  - intros e a b x Hne. cbn. unfold Config.bytes_write.
    destruct ((0 <=? b) && (b <? Config.EEPROM_SIZE)); [|reflexivity].
    replace (a =? b) with false by split_bounds. reflexivity.
  - intros e a b v Hd. cbn. unfold Config.bytes_put.
    destruct ((0 <=? b) && (b + 4 <=? Config.EEPROM_SIZE)); [|reflexivity].
    replace ((b <=? a) && (a <? b + 4)) with false by split_bounds.
    reflexivity.
Qed.

(** ** Saving and loading *)

Section StorageProofs.

Context {E : Type} `{Config.EepromLaws E Config.EEPROM_SIZE}.

Lemma cells_size_nonneg (cs : list Config.Cell) : 0 <= Config.cells_size cs.
Proof.
  induction cs as [|[v|x] cs IH];
    cbn [Config.cells_size Config.cell_size]; lia.
Qed.

Lemma keeps_below_refl (a : Z) (e : E) : Config.keeps_below a e e.
Proof. intros a0 cs _ Hh. exact Hh. Qed.

Lemma keeps_below_trans (a b : Z) (e1 e2 e3 : E) :
  a <= b -> Config.keeps_below a e1 e2 -> Config.keeps_below b e2 e3 ->
  Config.keeps_below a e1 e3.
Proof.
  intros Hab H12 H23 a0 cs Hs Hh.
  apply H23; [lia|]. now apply H12.
Qed.

Lemma put_keeps_below (a b v : Z) (e : E) :
  a <= b -> Config.keeps_below a e (Config.put_int b v e).
Proof.
  intros Hab a0 cs. revert a0.
  induction cs as [|[w|x] cs IH]; intros a0 Hs Hh;
    cbn [Config.holds Config.cells_size Config.cell_size] in *; [exact I| |].
  - pose proof (cells_size_nonneg cs).
    destruct Hh as [Hg Hh]. split.
    + rewrite Config.get_put_other; [exact Hg|lia].
    + apply IH; [lia|exact Hh].
  - pose proof (cells_size_nonneg cs).
    destruct Hh as [Hg Hh]. split.
    + rewrite Config.read_put_other; [exact Hg|lia].
    + apply IH; [lia|exact Hh].
Qed.

Lemma write_keeps_below (a b : Z) (x : ascii) (e : E) :
  a <= b -> Config.keeps_below a e (Config.write_byte b x e).
Proof.
  intros Hab a0 cs. revert a0.
  induction cs as [|[w|y] cs IH]; intros a0 Hs Hh;
    cbn [Config.holds Config.cells_size Config.cell_size] in *; [exact I| |].
  - pose proof (cells_size_nonneg cs).
    destruct Hh as [Hg Hh]. split.
    + rewrite Config.get_write_other; [exact Hg|lia].
    + apply IH; [lia|exact Hh].
  - pose proof (cells_size_nonneg cs).
    destruct Hh as [Hg Hh]. split.
    + rewrite Config.read_write_other; [exact Hg|lia].
    + apply IH; [lia|exact Hh].
Qed.

Lemma holds_app (a : Z) (cs1 cs2 : list Config.Cell) (e : E) :
  Config.holds a (cs1 ++ cs2) e <->
  Config.holds a cs1 e /\ Config.holds (a + Config.cells_size cs1) cs2 e.
Proof.
  revert a. induction cs1 as [|[v|x] cs1 IH]; intros a;
    cbn [app Config.holds Config.cells_size Config.cell_size].
  - rewrite Z.add_0_r. tauto.
  - rewrite IH. replace (a + 4 + Config.cells_size cs1)
      with (a + (4 + Config.cells_size cs1)) by lia. tauto.
  - rewrite IH. replace (a + 1 + Config.cells_size cs1)
      with (a + (1 + Config.cells_size cs1)) by lia. tauto.
Qed.

Lemma byte_cells_size (s : string) :
  Config.cells_size (Config.byte_cells s) = Z.of_nat (String.length s).
Proof.
  induction s as [|ch s IH];
    cbn [Config.byte_cells Config.cells_size Config.cell_size String.length];
    lia.
Qed.

Lemma int_cells_size (pins : list Z) :
  Config.cells_size (map Config.IntCell pins) = 4 * Z.of_nat (List.length pins).
Proof.
  induction pins as [|p pins IH];
    cbn [map Config.cells_size Config.cell_size List.length]; lia.
Qed.

Lemma addr_step (a k : Z) :
  0 <= a -> 0 <= k -> a + k <= Config.EEPROM_SIZE -> wrap_int (a + k) = a + k.
Proof.
  intros. apply wrap_int_id.
  unfold in_int, INT_MIN, INT_MAX, Config.EEPROM_SIZE in *. lia.
Qed.

(** The character loop stores the characters of the string. *)
Lemma write_chars_spec (s : string) : forall a e,
  0 <= a -> a + Z.of_nat (String.length s) <= Config.EEPROM_SIZE ->
  exists e',
    Config.write_chars (String.length s) a s e =
    (a + Z.of_nat (String.length s), e') /\
    Config.keeps_below a e e' /\ Config.holds a (Config.byte_cells s) e'.
Proof.
  induction s as [|ch s IH]; intros a e Ha Hs.
  - exists e. simpl. rewrite Z.add_0_r.
    split; [reflexivity|]. split; [apply keeps_below_refl|exact I].
  - cbn [String.length Config.write_chars Config.byte_cells] in *.
    rewrite addr_step by lia.
    destruct (IH (a + 1) (Config.write_byte a ch e)) as (e' & Hw & Hk & Hh);
      [lia|lia|].
    exists e'. rewrite Hw. split; [f_equal; lia|]. split.
    + apply (keeps_below_trans a (a + 1) e (Config.write_byte a ch e) e');
        [lia| |exact Hk].
      apply write_keeps_below. lia.
    + cbn [Config.holds]. split; [|exact Hh].
      assert (Config.holds a [Config.ByteCell ch] (Config.write_byte a ch e))
        as H1.
      { simpl. split; [|exact I]. apply Config.read_write_same.
        unfold Config.EEPROM_SIZE in *. lia. }
      apply (Hk a [Config.ByteCell ch]) in H1; [|cbn [Config.cells_size Config.cell_size]; lia].
      apply H1.
Qed.

Lemma writeString_spec (s : string) (a : Z) (e : E) :
  0 <= a -> a + 4 + Z.of_nat (String.length s) <= Config.EEPROM_SIZE ->
  exists e',
    Config.writeStringToEEPROM a s e =
    (a + 4 + Z.of_nat (String.length s), e') /\
    Config.keeps_below a e e' /\ Config.holds a (Config.string_cells s) e'.
Proof.
  intros Ha Hs. unfold Config.writeStringToEEPROM. cbv zeta.
  assert (Z.of_nat (String.length s) <= INT_MAX) as Hlen
    by (unfold INT_MAX, Config.EEPROM_SIZE in *; lia).
  rewrite (int_of_size_id _ Hlen), Nat2Z.id.
  unfold Config.SIZEOF_INT. rewrite addr_step by lia.
  destruct (write_chars_spec s (a + 4)
              (Config.put_int a (Z.of_nat (String.length s)) e))
    as (e' & Hw & Hk & Hh); [lia|lia|].
  exists e'. split; [exact Hw|]. split.
  - apply (keeps_below_trans a (a + 4) e
             (Config.put_int a (Z.of_nat (String.length s)) e) e');
      [lia| |exact Hk].
    apply put_keeps_below. lia.
  - unfold Config.string_cells. cbn [Config.holds]. split; [|exact Hh].
    assert (Config.holds a [Config.IntCell (Z.of_nat (String.length s))]
              (Config.put_int a (Z.of_nat (String.length s)) e)) as H1.
    { simpl. split; [|exact I]. apply Config.get_put_same; try lia.
      unfold in_int, INT_MIN, INT_MAX in *. lia. }
    apply (Hk a) in H1; [|cbn [Config.cells_size Config.cell_size]; lia]. apply H1.
Qed.

Lemma write_pins_spec (pins : list Z) : forall a e,
  0 <= a -> a + 4 * Z.of_nat (List.length pins) <= Config.EEPROM_SIZE ->
  Forall in_int pins ->
  exists e',
    Config.write_pins a pins e = (a + 4 * Z.of_nat (List.length pins), e') /\
    Config.keeps_below a e e' /\ Config.holds a (map Config.IntCell pins) e'.
Proof.
  induction pins as [|p pins IH]; intros a e Ha Hs Hall.
  - exists e. simpl. rewrite Z.add_0_r.
    split; [reflexivity|]. split; [apply keeps_below_refl|exact I].
  - inversion Hall as [|? ? Hp Hall']; subst.
    cbn [List.length Config.write_pins map] in *.
    unfold Config.SIZEOF_INT. rewrite addr_step by lia.
    destruct (IH (a + 4) (Config.put_int a p e)) as (e' & Hw & Hk & Hh);
      [lia|lia|exact Hall'|].
    exists e'. rewrite Hw. split; [f_equal; lia|]. split.
    + apply (keeps_below_trans a (a + 4) e (Config.put_int a p e) e');
        [lia| |exact Hk].
      apply put_keeps_below. lia.
    + cbn [Config.holds]. split; [|exact Hh].
      assert (Config.holds a [Config.IntCell p] (Config.put_int a p e)) as H1.
      { simpl. split; [|exact I]. apply Config.get_put_same; try lia. exact Hp. }
      apply (Hk a) in H1; [|cbn [Config.cells_size Config.cell_size]; lia]. apply H1.
Qed.

Lemma read_chars_spec (s : string) : forall a acc e,
  0 <= a -> a + Z.of_nat (String.length s) <= Config.EEPROM_SIZE ->
  Config.holds a (Config.byte_cells s) e ->
  Config.read_chars (String.length s) a acc e =
  ((acc ++ s)%string, a + Z.of_nat (String.length s)).
Proof.
  induction s as [|ch s IH]; intros a acc e Ha Hs Hh.
  - simpl. rewrite Z.add_0_r. f_equal.
    clear. induction acc as [|x acc IH]; simpl; [reflexivity|now f_equal].
  - cbn [String.length Config.read_chars Config.byte_cells Config.holds] in *.
    destruct Hh as [Hr Hh]. rewrite Hr, addr_step by lia.
    rewrite (IH (a + 1)); [|lia|lia|exact Hh].
    rewrite string_app_assoc. cbn [String.append]. f_equal. lia.
Qed.

Lemma readString_spec (s : string) (a : Z) (e : E) :
  0 <= a -> a + 4 + Z.of_nat (String.length s) <= Config.EEPROM_SIZE ->
  Config.holds a (Config.string_cells s) e ->
  Config.readStringFromEEPROM a e = (s, a + 4 + Z.of_nat (String.length s)).
Proof.
  intros Ha Hs Hh. unfold Config.string_cells in Hh.
  cbn [Config.holds] in Hh. destruct Hh as [Hg Hh].
  unfold Config.readStringFromEEPROM, Config.SIZEOF_INT. cbv zeta.
  rewrite Hg, Nat2Z.id, addr_step by lia.
  now rewrite (read_chars_spec s (a + 4)) by (try lia; exact Hh).
Qed.

Lemma read_pins_spec (pins : list Z) : forall n a e,
  (n <= List.length pins)%nat ->
  0 <= a -> a + 4 * Z.of_nat (List.length pins) <= Config.EEPROM_SIZE ->
  Config.holds a (map Config.IntCell pins) e ->
  Config.read_pins n a e = firstn n pins.
Proof.
  induction pins as [|p pins IH]; intros n a e Hn Ha Hs Hh.
  - destruct n; [reflexivity|simpl in Hn; lia].
  - destruct n as [|n]; [reflexivity|].
    cbn [map Config.holds List.length Config.read_pins firstn] in *.
    destruct Hh as [Hg Hh]. unfold Config.SIZEOF_INT.
    rewrite Hg, addr_step by lia. f_equal.
    apply IH; [lia|lia|lia|exact Hh].
Qed.

Lemma cells_size_app (cs1 cs2 : list Config.Cell) :
  Config.cells_size (cs1 ++ cs2) =
  Config.cells_size cs1 + Config.cells_size cs2.
Proof.
  induction cs1 as [|cl cs1 IH]; cbn [app Config.cells_size]; lia.
Qed.

Lemma string_cells_size (s : string) :
  Config.cells_size (Config.string_cells s) = 4 + Z.of_nat (String.length s).
Proof.
  unfold Config.string_cells.
  cbn [Config.cells_size Config.cell_size]. now rewrite byte_cells_size.
Qed.

(** One more piece behind what is already held from address 0. *)
Lemma holds_extend (pre piece : list Config.Cell) (a : Z) (e e' : E) :
  Config.holds 0 pre e -> Config.cells_size pre = a ->
  Config.keeps_below a e e' -> Config.holds a piece e' ->
  Config.holds 0 (pre ++ piece) e'.
Proof.
  intros Hpre Hsize Hk Hp. apply holds_app. split.
  - apply (Hk 0 pre); [lia|exact Hpre].
  - now rewrite Z.add_0_l, Hsize.
Qed.

Lemma layout_size (c : Config.ConfigManager) :
  Config.cells_size (Config.layout c) = Config.stored_size c.
Proof.
  unfold Config.layout, Config.stored_size.
  rewrite !cells_size_app, !string_cells_size, int_cells_size.
  cbn [Config.cells_size Config.cell_size]. lia.
Qed.

Ltac cells_size_goal :=
  rewrite ?cells_size_app, ?string_cells_size;
  cbn [Config.cells_size Config.cell_size]; lia.

(** Advance over the next [writeStringToEEPROM] of the goal, adding its
    cells to what [A] says is held. *)
Ltac step_string A :=
  match goal with
  | |- context [Config.writeStringToEEPROM ?a ?s ?e] =>
      let e' := fresh "e" in
      let K := fresh "K" in
      let Hh := fresh "Hh" in
      let Hw := fresh "Hw" in
      destruct (writeString_spec s a e) as (e' & Hw & K & Hh);
      [lia|unfold Config.EEPROM_SIZE; lia|];
      rewrite Hw; cbv beta iota;
      apply (holds_extend _ (Config.string_cells s) a e e') in A;
      [|cells_size_goal|exact K|exact Hh];
      clear Hw K Hh
  end.

(** The same over the [EEPROM.put] of the value [v]. *)
Ltac step_put v A :=
  match goal with
  | |- context [Config.put_int ?a v ?e] =>
      apply (holds_extend _ [Config.IntCell v] a e (Config.put_int a v e))
        in A;
      [|cells_size_goal
       |apply put_keeps_below; lia
       |cbn [Config.holds]; split; [|exact I];
        apply Config.get_put_same;
        [lia|unfold Config.EEPROM_SIZE; lia
        |first [assumption
               |unfold in_int, INT_MIN, INT_MAX,
                  Config.CURRENT_CONFIG_VERSION; lia]]]
  end.

(** After [saveToEEPROM] the EEPROM holds the layout of the
    configuration. *)
Lemma save_holds_layout (c : Config.ConfigManager) (e : E) :
  Config.storable c ->
  Config.holds 0 (Config.layout c) (Config.saveToEEPROM c e).
Proof.
  intros (Hfit & Hq & Hp & Hpins).
  unfold Config.stored_size, Config.EEPROM_SIZE in Hfit.
  pose proof (addr_step) as Hstep. unfold Config.EEPROM_SIZE in Hstep.
  unfold Config.saveToEEPROM, Config.CONFIG_VERSION_ADDR,
    Config.CONFIG_START_ADDR, Config.SIZEOF_INT. cbv zeta.
  assert (Config.holds 0 [] e) as A by exact I.
  step_put Config.CURRENT_CONFIG_VERSION A.
  step_string A.
  step_string A.
  step_string A.
  step_put (Config.questPort c) A.
  match goal with
  | |- context [Config.writeStringToEEPROM (wrap_int (?a + 4))] =>
      rewrite (Hstep a 4) by lia
  end.
  step_string A.
  step_put (Config.pcPort c) A.
  assert (Z.of_nat (List.length (Config.buttonPins c)) <= INT_MAX) as Hn
    by (unfold INT_MAX; lia).
  rewrite (int_of_size_id _ Hn).
  match goal with
  | |- context [Config.put_int (wrap_int (?a + 4)) (Z.of_nat _)] =>
      rewrite (Hstep a 4) by lia
  end.
  step_put (Z.of_nat (List.length (Config.buttonPins c))) A.
  match goal with
  | |- context [Config.write_pins (wrap_int (?a + 4))] =>
      rewrite (Hstep a 4) by lia
  end.
  match goal with
  | |- context [Config.write_pins ?a ?pins ?e0] =>
      destruct (write_pins_spec pins a e0) as (e8 & Hw & K8 & H8);
      [lia|unfold Config.EEPROM_SIZE; lia|exact Hpins|];
      rewrite Hw; cbn [snd];
      apply (holds_extend _ (map Config.IntCell pins) a e0 e8) in A;
      [|cells_size_goal|exact K8|exact H8]
  end.
  rewrite <- !app_assoc in A. cbn [app] in A.
  unfold Config.layout. cbn [app]. exact A.
Qed.

Lemma firstn_min_8 (pins : list Z) :
  firstn (Z.to_nat (Z.min (Z.of_nat (List.length pins)) 8)) pins =
  firstn 8 pins.
Proof.
  destruct (Z.le_gt_cases (Z.of_nat (List.length pins)) 8) as [Hle|Hgt].
  - rewrite Z.min_l, Nat2Z.id by exact Hle.
    rewrite firstn_all. symmetry. apply firstn_all2. lia.
  - rewrite Z.min_r by lia. reflexivity.
Qed.

(** Read the next string of the goal from the piece [P] of the layout. *)
Ltac load_string s P :=
  match goal with
  | |- context [Config.readStringFromEEPROM ?a ?e] =>
      rewrite (readString_spec s a e);
      [cbv beta iota
      |lia
      |unfold Config.EEPROM_SIZE; lia
      |match type of P with
       | Config.holds ?a' _ _ => replace a with a' by lia; exact P
       end]
  end.

(** The same for the next [int]. *)
Ltac load_int P :=
  match type of P with
  | Config.get_int ?a' ?e = _ =>
      match goal with
      | |- context [Config.get_int ?a e] =>
          replace (Config.get_int a e) with (Config.get_int a' e)
            by (f_equal; lia);
          rewrite P
      end
  end.

Ltac load_step :=
  match goal with
  | |- context [wrap_int (?a + 4)] =>
      rewrite (addr_step a 4) by (unfold Config.EEPROM_SIZE; lia)
  end.

(** From an EEPROM that holds the layout of [c], [loadFromEEPROM] reads
    [c] back, with at most eight pins. *)
Lemma load_of_layout (c c0 : Config.ConfigManager) (e : E) :
  Config.stored_size c <= Config.EEPROM_SIZE ->
  Config.holds 0 (Config.layout c) e ->
  Config.loadFromEEPROM e c0 =
  {| Config.wifiSSID := Config.wifiSSID c;
     Config.wifiPassword := Config.wifiPassword c;
     Config.questIP := Config.questIP c;
     Config.questPort := Config.questPort c;
     Config.pcIP := Config.pcIP c;
     Config.pcPort := Config.pcPort c;
     Config.buttonPins := firstn 8 (Config.buttonPins c);
     Config.deviceID := Config.deviceID c0 |}.
Proof.
  intros Hfit Hh.
  unfold Config.stored_size, Config.EEPROM_SIZE in Hfit.
  unfold Config.layout in Hh.
  apply holds_app in Hh as [P0 Hh]. apply holds_app in Hh as [P1 Hh].
  apply holds_app in Hh as [P2 Hh]. apply holds_app in Hh as [P3 Hh].
  apply holds_app in Hh as [P4 Hh]. apply holds_app in Hh as [P5 Hh].
  apply holds_app in Hh as [P6 Hh]. apply holds_app in Hh as [P7 P8].
  rewrite ?string_cells_size in *.
  cbn [Config.cells_size Config.cell_size] in *.
  cbn [Config.holds] in P0, P4, P6, P7.
  destruct P0 as [P0 _], P4 as [P4 _], P6 as [P6 _], P7 as [P7 _].
  unfold Config.loadFromEEPROM, Config.CONFIG_VERSION_ADDR,
    Config.CONFIG_START_ADDR, Config.SIZEOF_INT. cbv zeta.
  rewrite P0. cbn [Z.eqb Config.CURRENT_CONFIG_VERSION Pos.eqb negb].
  load_string (Config.wifiSSID c) P1.
  load_string (Config.wifiPassword c) P2.
  load_string (Config.questIP c) P3.
  load_int P4. load_step.
  load_string (Config.pcIP c) P5.
  load_int P6. load_step.
  load_int P7. load_step.
  f_equal.
  match goal with
  | |- Config.read_pins _ ?a _ = _ =>
      rewrite (read_pins_spec (Config.buttonPins c) _ a e);
      [apply firstn_min_8
      |lia
      |lia
      |unfold Config.EEPROM_SIZE; lia
      |match type of P8 with
       | Config.holds ?a' _ _ => replace a with a' by lia; exact P8
       end]
  end.
Qed.

End StorageProofs.

(** Saving then loading, the shared form. *)
Lemma save_then_load {E : Type}
    `{Config.EepromLaws E Config.EEPROM_SIZE}
    (c c0 : Config.ConfigManager) (e : E) :
  Config.storable c ->
  Config.loadFromEEPROM (Config.saveToEEPROM c e) c0 =
  {| Config.wifiSSID := Config.wifiSSID c;
     Config.wifiPassword := Config.wifiPassword c;
     Config.questIP := Config.questIP c;
     Config.questPort := Config.questPort c;
     Config.pcIP := Config.pcIP c;
     Config.pcPort := Config.pcPort c;
     Config.buttonPins := firstn 8 (Config.buttonPins c);
     Config.deviceID := Config.deviceID c0 |}.
Proof.
  intros Hst.
  exact (load_of_layout c c0 (Config.saveToEEPROM c e)
           (proj1 Hst) (save_holds_layout c e Hst)).
Qed.

(** X14.  On an EEPROM that behaves as a byte array, a configuration
    that fits the 512 bytes is read back by [loadFromEEPROM] as it was
    saved by [saveToEEPROM], whatever the EEPROM held before - except
    that at most the first eight button pins come back (the saving loop
    writes them all, the loading loop stops at eight), and [deviceID],
    which is not stored, stays the one of the loading object. *)
Theorem config_save_load_round_trip {E : Type}
    `{Config.EepromLaws E Config.EEPROM_SIZE}
    (c c0 : Config.ConfigManager) (e : E) :
  Config.storable c ->
  Config.loadFromEEPROM (Config.saveToEEPROM c e) c0 =
  {| Config.wifiSSID := Config.wifiSSID c;
     Config.wifiPassword := Config.wifiPassword c;
     Config.questIP := Config.questIP c;
     Config.questPort := Config.questPort c;
     Config.pcIP := Config.pcIP c;
     Config.pcPort := Config.pcPort c;
     Config.buttonPins := firstn 8 (Config.buttonPins c);
     Config.deviceID := Config.deviceID c0 |} /\
  ((List.length (Config.buttonPins c) <= 8)%nat ->
   Config.buttonPins (Config.loadFromEEPROM (Config.saveToEEPROM c e) c0) =
   Config.buttonPins c).
Proof.
  intros Hst.
  assert (Hload := save_then_load c c0 e Hst).
  split; [exact Hload|].
  intros Hlen. rewrite Hload. cbn [Config.buttonPins].
  now apply firstn_all2.
Qed.

Lemma home_storable : Config.storable Config.home.
Proof.
  split; [vm_compute; discriminate|].
  split; [split; vm_compute; discriminate|].
  split; [split; vm_compute; discriminate|].
  repeat constructor; vm_compute; discriminate.
Qed.

Lemma config_save_load_round_trip_witness :
  Config.storable Config.home /\
  Config.buttonPins
    (Config.loadFromEEPROM
       (Config.saveToEEPROM Config.home Config.blank) Config.fresh)
  = [2; 4; 5; 18; 19; 21; 22; 23].
Proof.
  split; [exact home_storable|].
  rewrite (proj1 (config_save_load_round_trip
                    Config.home Config.fresh Config.blank home_storable)).
  reflexivity.
Defined.

Lemma defaults_storable (c : Config.ConfigManager) :
  Config.storable (Config.setDefaults c).
Proof.
  split; [vm_compute; discriminate|].
  split; [split; vm_compute; discriminate|].
  split; [split; vm_compute; discriminate|].
  repeat constructor; vm_compute; discriminate.
Qed.

(** X15.  First boot and reboot.  If [init] finds no valid configuration
    in the EEPROM, the defaults it installs are also what every later
    [init] on the EEPROM it leaves will load: the later boot finds a
    valid configuration, returns the defaults (with the id of its own
    MAC address) and does not write the EEPROM again. *)
Theorem defaults_survive_reboot {E : Type}
    `{Config.EepromLaws E Config.EEPROM_SIZE}
    (mac mac' : list Z) (e : E) (c c' : Config.ConfigManager) :
  Config.isValid (Config.loadFromEEPROM e c) = false ->
  let e1 := snd (Config.init mac e c) in
  Config.loadFromEEPROM e1 c' = Config.setDefaults c' /\
  Config.init mac' e1 c' =
  (Config.generateDeviceID mac' (Config.setDefaults c'), e1).
Proof.
  intros Hbad e1.
  assert (e1 = Config.saveToEEPROM
                 (Config.setDefaults (Config.loadFromEEPROM e c)) e) as He1.
  { subst e1. unfold Config.init. now rewrite Hbad. }
  assert (Config.loadFromEEPROM e1 c' = Config.setDefaults c') as Hload.
  { rewrite He1.
    rewrite (save_then_load _ c' e (defaults_storable _)).
    reflexivity. }
  split; [exact Hload|].
  unfold Config.init. rewrite Hload. reflexivity.
Qed.

Lemma defaults_survive_reboot_witness :
  Config.isValid (Config.loadFromEEPROM Config.blank Config.fresh) = false /\
  Config.buttonPins
    (fst (Config.init Config.sample_mac
            (snd (Config.init Config.sample_mac Config.blank Config.fresh))
            Config.fresh))
  = [2; 4; 5; 18].
Proof.
  assert (Config.isValid (Config.loadFromEEPROM Config.blank Config.fresh)
          = false) as Hbad by (vm_compute; reflexivity).
  split; [exact Hbad|].
  rewrite (proj2 (defaults_survive_reboot Config.sample_mac Config.sample_mac
                    Config.blank Config.fresh Config.fresh Hbad)).
  reflexivity.
Defined.

(** X16.  [setButtonPins] and the next boot, on an EEPROM that behaves
    as a byte array and for a valid configuration that still fits it
    with the new pins.  With a non-empty list the next [init] restores
    the WiFi and target settings and the first eight of the new pins.
    With the empty list the stored configuration is no longer valid, and
    the next [init] replaces all of it by the defaults: the WiFi
    credentials and targets are lost together with the pins. *)
Theorem pins_after_reboot {E : Type}
    `{Config.EepromLaws E Config.EEPROM_SIZE}
    (pins mac : list Z) (e : E) (c c0 : Config.ConfigManager) :
  Config.isValid c = true ->
  Config.storable (fst (Config.setButtonPins pins e c)) ->
  let e1 := snd (Config.setButtonPins pins e c) in
  let c2 := fst (Config.init mac e1 c0) in
  (pins <> [] ->
   Config.buttonPins c2 = firstn 8 pins /\
   Config.wifiSSID c2 = Config.wifiSSID c /\
   Config.wifiPassword c2 = Config.wifiPassword c /\
   Config.questIP c2 = Config.questIP c /\
   Config.questPort c2 = Config.questPort c /\
   Config.pcIP c2 = Config.pcIP c /\
   Config.pcPort c2 = Config.pcPort c /\
   snd (Config.init mac e1 c0) = e1) /\
  (pins = [] ->
   c2 = Config.generateDeviceID mac (Config.setDefaults c0) /\
   Config.wifiSSID c2 = "YourWiFiName"%string /\
   Config.buttonPins c2 = [2; 4; 5; 18]).
Proof.
  intros Hv Hst e1 c2. subst e1 c2.
  unfold Config.setButtonPins in *. cbn [fst snd] in *.
  unfold Config.init.
  rewrite (save_then_load _ c0 e Hst).
  cbn [Config.wifiSSID Config.wifiPassword Config.questIP Config.questPort
       Config.pcIP Config.pcPort Config.buttonPins Config.deviceID].
  unfold Config.isValid in Hv.
  rewrite !andb_true_iff in Hv.
  destruct Hv as ((((((((V1 & V2) & V3) & V4) & V5) & V6) & V7) & V8) & _).
  assert (Hvalid : forall l d,
            Config.isValid
              {| Config.wifiSSID := Config.wifiSSID c;
                 Config.wifiPassword := Config.wifiPassword c;
                 Config.questIP := Config.questIP c;
                 Config.questPort := Config.questPort c;
                 Config.pcIP := Config.pcIP c;
                 Config.pcPort := Config.pcPort c;
                 Config.buttonPins := l; Config.deviceID := d |} =
            negb (match l with [] => true | _ :: _ => false end)).
  { intros l d. unfold Config.isValid.
    cbn [Config.wifiSSID Config.wifiPassword Config.questIP Config.questPort
         Config.pcIP Config.pcPort Config.buttonPins].
    now rewrite V1, V2, V3, V4, V5, V6, V7, V8. }
  rewrite Hvalid. split.
  - intros Hne. destruct pins as [|p ps]; [congruence|].
    change (firstn 8 (p :: ps)) with (p :: firstn 7 ps).
    cbn [negb fst snd Config.generateDeviceID Config.wifiSSID
         Config.wifiPassword Config.questIP Config.questPort Config.pcIP
         Config.pcPort Config.buttonPins].
    repeat split.
  - intros ->. cbn [firstn negb fst snd]. repeat split.
Qed.

Lemma pins_after_reboot_witness :
  Config.wifiSSID
    (fst (Config.init Config.sample_mac
            (snd (Config.setButtonPins [] Config.blank Config.home))
            Config.fresh))
  = "YourWiFiName"%string.
Proof.
  refine (proj1 (proj2 (proj2
    (pins_after_reboot [] Config.sample_mac Config.blank Config.home
       Config.fresh _ _) eq_refl))).
  - vm_compute. reflexivity.
  - split; [vm_compute; discriminate|].
    split; [split; vm_compute; discriminate|].
    split; [split; vm_compute; discriminate|constructor].
Defined.

Lemma udp_connection_follows_last_success_witness :
  UDP.isQuestConnected 9999
    (UDP.run_sends [UDP.ToQuest UDP.offline 20 5000; UDP.ToPC UDP.good 20 6000]
       (UDP.init 0 0)) = true /\
  UDP.isQuestConnected 10000
    (UDP.run_sends [UDP.ToQuest UDP.offline 20 5000; UDP.ToPC UDP.good 20 6000]
       (UDP.init 0 0)) = false.
Proof.
  split.
  - rewrite (proj1 (udp_connection_follows_last_success
                      [UDP.ToQuest UDP.offline 20 5000;
                       UDP.ToPC UDP.good 20 6000] 0 0 9999)).
    reflexivity.
  - rewrite (proj1 (udp_connection_follows_last_success
                      [UDP.ToQuest UDP.offline 20 5000;
                       UDP.ToPC UDP.good 20 6000] 0 0 10000)).
    reflexivity.
Defined.

